(** * Bracket-notation syntax trees: parser, layout and movement arcs

    A shallow embedding of [src/tree/parse.ts], [src/tree/layout.ts] and
    [src/tree/render.ts], followed by the properties of the three pieces.
    The trees are values; [layoutTree] is modelled a second time over a
    store of objects, to account for what it writes and where.

    Conventions of the embedding.
    - A JavaScript string is a [string]; each character stands for one
      UTF-16 code unit below 256, so [String.length] is [.length].
    - A JavaScript number is a rational [Q].  Every number the layout
      computes is an integer or a half-integer of modest size, which an
      IEEE double holds exactly, so the rational arithmetic is the
      program's arithmetic.  [Infinity], the initial value of [minX], is
      the extra point of [ext].
    - A thrown [Error] is the [Throw] outcome of [result]; the recursion
      of the parser is driven by a fuel argument and [OutOfFuel] is the
      outcome of a run that was given too little of it. *)

From stdpp Require Import base tactics list.
From Stdlib Require Import String Ascii List ZArith QArith Qminmax Lia Lqa.
Import ListNotations.

Set Warnings "-register-all".
Close Scope Q_scope.
Open Scope string_scope.
Open Scope list_scope.
Open Scope nat_scope.

(** ** JavaScript string primitives used by the sources *)

Module Js.

(** [s.indexOf(c)] for a one-character needle; [None] stands for -1. *)
Fixpoint indexOf (c : ascii) (s : string) : option nat :=
  match s with
  | EmptyString => None
  | String d s' =>
      if Ascii.eqb d c then Some 0
      else match indexOf c s' with
           | Some i => Some (S i)
           | None => None
           end
  end.

(** [s.slice(n)]. *)
Fixpoint sliceFrom (n : nat) (s : string) : string :=
  match n, s with
  | 0, _ => s
  | S _, EmptyString => EmptyString
  | S n', String _ s' => sliceFrom n' s'
  end.

(** [s.slice(0, n)]. *)
Fixpoint sliceTo (n : nat) (s : string) : string :=
  match n, s with
  | 0, _ => EmptyString
  | S _, EmptyString => EmptyString
  | S n', String c s' => String c (sliceTo n' s')
  end.

(** [/\s/.test(c)] on one code unit below 256: TAB, LF, VT, FF, CR,
    SPACE and NO-BREAK SPACE. *)
Definition isSpace (c : ascii) : bool :=
  let n := nat_of_ascii c in
  ((9 <=? n) && (n <=? 13)) || (n =? 32) || (n =? 160).

(** [/\s|\[|\]/.test(c)]. *)
Definition isSpaceOrBracket (c : ascii) : bool :=
  isSpace c || Ascii.eqb c "[" || Ascii.eqb c "]".

(** [/^[+-]/.test(s)]. *)
Definition startsWithSign (s : string) : bool :=
  match s with
  | String c _ => Ascii.eqb c "+" || Ascii.eqb c "-"
  | EmptyString => false
  end.

(** [s.startsWith("+")]. *)
Definition startsWithPlus (s : string) : bool :=
  match s with
  | String c _ => Ascii.eqb c "+"
  | EmptyString => false
  end.

(** [s.replace(/^[+-]/, empty)]. *)
Definition stripSign (s : string) : string :=
  match s with
  | String c s' => if Ascii.eqb c "+" || Ascii.eqb c "-" then s' else s
  | EmptyString => s
  end.

(** The double-quote character, code unit 34. *)
Definition dquote : ascii := ascii_of_nat 34.

(** Removes a final double quote: the end-anchored alternative of the
    regular expression below. *)
Fixpoint stripLastQuote (s : string) : string :=
  match s with
  | EmptyString => EmptyString
  | String c EmptyString => if Ascii.eqb c dquote then EmptyString else s
  | String c s' => String c (stripLastQuote s')
  end.

(** [s.replace(/^Q|Q$/g, empty)] with Q the double quote: a double quote
    at the start is removed, and the scan goes on after it, where a
    double quote at the very end is removed as well. *)
Definition stripQuotes (s : string) : string :=
  match s with
  | String c s' => if Ascii.eqb c dquote then stripLastQuote s' else stripLastQuote s
  | EmptyString => s
  end.

(** [parts.join(sep)]. *)
Fixpoint join (sep : string) (parts : list string) : string :=
  match parts with
  | [] => EmptyString
  | [p] => p
  | p :: rest => p ++ sep ++ join sep rest
  end.

(** Truthiness of an optional string ([if (n.id)]): [undefined] and the
    empty string are falsy. *)
Definition truthy (s : option string) : bool :=
  match s with
  | Some (String _ _) => true
  | _ => false
  end.

End Js.

(** ** Outcomes *)

Inductive Kind := sym | lbr | rbr | quote.

Inductive error :=
| UnclosedQuote
| UnexpectedEndOfInput
| Expected (want got : Kind)
| UnexpectedEnd
| UnclosedBracket
| BadToken
| ExtraInput.

Inductive result (A : Type) :=
| Ok (a : A)
| Throw (e : error)
| OutOfFuel.
Arguments Ok {A} a.
Arguments Throw {A} e.
Arguments OutOfFuel {A}.

(** ** src/tree/parse.ts *)

Module Parse.

Inductive Sign := Plus | Minus.

Record Feature := mkFeature { sign : Sign; name : string }.

Inductive Node := mkNode {
  label : string;
  features : list Feature;
  id : option string;
  children : list Node
}.

Record Tok := mkTok { kind : Kind; value : string }.

Definition kindName (k : Kind) : string :=
  match k with sym => "sym" | lbr => "lbr" | rbr => "rbr" | quote => "quote" end.

(** The text of the [Error] each outcome carries. *)
Definition message (e : error) : string :=
  match e with
  | UnclosedQuote => "Unclosed quote"
  | UnexpectedEndOfInput => "Unexpected end of input"
  | Expected want got => "Expected " ++ kindName want ++ ", got " ++ kindName got
  | UnexpectedEnd => "Unexpected end"
  | UnclosedBracket => "Unclosed '['"
  | BadToken => "Bad token"
  | ExtraInput => "Extra input after tree"
  end.

Definition kind_eqb (a b : Kind) : bool :=
  match a, b with
  | sym, sym | lbr, lbr | rbr, rbr | quote, quote => true
  | _, _ => false
  end.

(** *** tokenize

    The cursor [i] is the suffix of [src] that is still to be read. *)

(** [while (j < src.length && src[j] !== Q) buf += src[j++]] with Q the
    double quote: the text read and the suffix at [j]. *)
Fixpoint scanQuoted (s : string) : string * string :=
  match s with
  | EmptyString => (EmptyString, EmptyString)
  | String c s' =>
      if Ascii.eqb c Js.dquote then (EmptyString, s)
      else let '(buf, rest) := scanQuoted s' in (String c buf, rest)
  end.

(** [while (j < src.length && !/\s|\[|\]/.test(src[j])) buf += src[j++]]. *)
Fixpoint scanSymbol (s : string) : string * string :=
  match s with
  | EmptyString => (EmptyString, EmptyString)
  | String c s' =>
      if Js.isSpaceOrBracket c then (EmptyString, s)
      else let '(buf, rest) := scanSymbol s' in (String c buf, rest)
  end.

Fixpoint tokenizeLoop (fuel : nat) (s : string) (out : list Tok) : result (list Tok) :=
  match fuel with
  | 0 => OutOfFuel
  | S fuel' =>
      match s with
      | EmptyString => Ok out
      | String c s' =>
          if Js.isSpace c then tokenizeLoop fuel' s' out
          else if Ascii.eqb c "[" then tokenizeLoop fuel' s' (out ++ [mkTok lbr "["])
          else if Ascii.eqb c "]" then tokenizeLoop fuel' s' (out ++ [mkTok rbr "]"])
          else if Ascii.eqb c Js.dquote then
            let '(buf, rest) := scanQuoted s' in
            match rest with
            | EmptyString => Throw UnclosedQuote
            | String _ rest' => tokenizeLoop fuel' rest' (out ++ [mkTok sym buf])
            end
          else
            let '(buf, rest) := scanSymbol s in
            tokenizeLoop fuel' rest (out ++ [mkTok sym buf])
      end
  end.

Definition tokenize (src : string) : result (list Tok) :=
  tokenizeLoop (S (String.length src)) src [].

(** *** parseTree *)

Record Head := mkHead { base : string; hfeatures : list Feature; hid : option string }.

Definition parseFeaturesPart (sym : string) : Head :=
  match Js.indexOf "#" sym with
  | Some hash => mkHead (Js.sliceTo hash sym) [] (Some (Js.sliceFrom (hash + 1) sym))
  | None => mkHead sym [] None
  end.

(** The closures of [parseTree] share the token array [toks] and the
    cursor [p]: a parser action takes the cursor and gives back a value
    and the new cursor, or throws. *)
Definition P (A : Type) : Type := nat -> result (A * nat).

Definition ret {A} (a : A) : P A := fun p => Ok (a, p).

Definition throw {A} (e : error) : P A := fun _ => Throw e.

Definition bind {A B} (m : P A) (k : A -> P B) : P B :=
  fun p =>
    match m p with
    | Ok (a, p') => k a p'
    | Throw e => Throw e
    | OutOfFuel => OutOfFuel
    end.

Notation "x <- m ;; k" := (bind m (fun x => k))
  (at level 100, m at next level, right associativity).

Definition getCursor : P nat := fun p => Ok (p, p).

Definition setCursor (save : nat) : P unit := fun _ => Ok (tt, save).

Section Parser.

Variable toks : list Tok.

Definition peek : P (option Tok) := fun p => Ok (nth_error toks p, p).

Definition eat (k : Kind) : P Tok :=
  fun p =>
    match nth_error toks p with
    | None => Throw UnexpectedEndOfInput
    | Some t =>
        if kind_eqb (kind t) k then Ok (t, S p) else Throw (Expected k (kind t))
    end.

(** [maybe?.kind === "sym" && /^[+-]/.test(maybe.value)]. *)
Definition isFeatureTok (maybe : option Tok) : bool :=
  match maybe with
  | Some t => kind_eqb (kind t) sym && Js.startsWithSign (value t)
  | None => false
  end.

(** [parseNode], and the [while (true)] loop of its bracketed branch
    as [parseBody], whose arguments are the loop's [features] and
    [children] so far. *)
Fixpoint parseNode (fuel : nat) : P Node :=
  match fuel with
  | 0 => fun _ => OutOfFuel
  | S fuel' =>
      t <- peek ;;
      match t with
      | None => throw UnexpectedEnd
      | Some t =>
          match kind t with
          | lbr =>
              _ <- eat lbr ;;
              labelTok <- eat sym ;;
              let head := parseFeaturesPart (value labelTok) in
              body <- parseBody fuel' [] [] ;;
              let '(features, children) := body in
              _ <- eat rbr ;;
              ret (mkNode (base head) features (hid head) children)
          | sym =>
              s <- eat sym ;;
              let head := parseFeaturesPart (value s) in
              ret (mkNode (base head) [] (hid head) [])
          | _ => throw BadToken
          end
      end
  end
with parseBody (fuel : nat) (features : list Feature) (children : list Node)
  : P (list Feature * list Node) :=
  match fuel with
  | 0 => fun _ => OutOfFuel
  | S fuel' =>
      t2 <- peek ;;
      match t2 with
      | None => throw UnclosedBracket
      | Some t2 =>
          match kind t2 with
          | lbr =>
              save <- getCursor ;;
              _ <- eat lbr ;;
              maybe <- peek ;;
              if isFeatureTok maybe then
                featTok <- eat sym ;;
                let sign := if Js.startsWithPlus (value featTok) then Plus else Minus in
                let name := Js.stripSign (value featTok) in
                _ <- eat rbr ;;
                parseBody fuel' (features ++ [mkFeature sign name]) children
              else
                _ <- setCursor save ;;
                c <- parseNode fuel' ;;
                parseBody fuel' features (children ++ [c])
          | sym =>
              leaf <- eat sym ;;
              parseBody fuel'
                features
                (children ++ [mkNode (Js.stripQuotes (value leaf)) [] None []])
          | rbr => ret (features, children)
          | quote => ret (features, children)
          end
      end
  end.

End Parser.

(** Fuel that no run of [parseNode] on [toks] uses up. *)
Definition parseFuel (toks : list Tok) : nat := 2 * List.length toks + 2.

Definition parseTree (src : string) : result Node :=
  match tokenize src with
  | Ok toks =>
      match parseNode toks (parseFuel toks) 0 with
      | Ok (root, p) =>
          if p =? List.length toks then Ok root else Throw ExtraInput
      | Throw e => Throw e
      | OutOfFuel => OutOfFuel
      end
  | Throw e => Throw e
  | OutOfFuel => OutOfFuel
  end.

End Parse.

(** ** JavaScript [Map] with string keys

  Entries are kept in insertion order, which is the order [forEach]
  visits them in; [set] on a key that is present keeps its place. *)

Module JsMap.

Section Map.

Context {V : Type}.

Definition t := list (string * V).

Definition empty : t := [].

Fixpoint get (m : t) (k : string) : option V :=
  match m with
  | [] => None
  | (k', v) :: m' => if String.eqb k' k then Some v else get m' k
  end.

Fixpoint set (m : t) (k : string) (v : V) : t :=
  match m with
  | [] => [(k, v)]
  | (k', v') :: m' =>
      if String.eqb k' k then (k, v) :: m' else (k', v') :: set m' k v
  end.

End Map.

Arguments t : clear implicits.

End JsMap.

(** ** src/tree/layout.ts *)

Inductive ext := Infinity | Fin (q : Q).

Module Layout.

Import Parse.
Local Open Scope Q_scope.

(** A [Positioned] is a tree of its own: the [parent] back-reference is
    part of the store model [Store] further down. *)
Inductive Positioned := mkPositioned {
  label : string;
  features : list Feature;
  id : option string;
  x : Q;
  y : Q;
  width : Q;
  height : Q;
  children : list Positioned
}.

Definition NODE_W : Q := 36.
Definition NODE_H : Q := 22.
Definition H_GAP : Q := 14.
Definition V_GAP : Q := 28.

Definition signText (s : Sign) : string :=
  match s with Plus => "+" | Minus => "-" end.

(** [`${f.sign}${f.name}`]. *)
Definition featureText (f : Feature) : string :=
  (signText (sign f) ++ name f)%string.

(** The text [measureLabel] measures. *)
Definition labelText (label : string) (features : list Feature) : string :=
  (label ++
   match features with
   | [] => EmptyString
   | _ => " [" ++ Js.join "," (map featureText features) ++ "]"
   end)%string.

Definition numOfNat (n : nat) : Q := inject_Z (Z.of_nat n).

(** [measureLabel] on the two properties it reads. *)
Definition measureText (label : string) (features : list Feature) : Q :=
  let label := labelText label features in
  Qmax NODE_W (8 * numOfNat (String.length label) + 12).

Definition measureLabel (n : Node) : Q :=
  measureText (Parse.label n) (Parse.features n).

Fixpoint clone (n : Node) : Positioned :=
  match n with
  | mkNode l f i cs =>
      mkPositioned l f i 0 0 (measureLabel n) NODE_H (map clone cs)
  end.

Section FirstWalkEach.

Variable firstWalk : Positioned -> Positioned * Q.
Variable len : nat.

(** [n.children.forEach((c,i) => ...)] of [firstWalk]: the children
    after their own walk, and [widthSum]. *)
Fixpoint firstWalkEach (cs : list Positioned) (i : nat) (widthSum : Q)
  : list Positioned * Q :=
  match cs with
  | [] => ([], widthSum)
  | c :: rest =>
      let '(c', w) := firstWalk c in
      let widthSum := widthSum + w in
      let widthSum := if (i <? len - 1)%nat then widthSum + H_GAP else widthSum in
      let '(rest', widthSum) := firstWalkEach rest (S i) widthSum in
      (c' :: rest', widthSum)
  end.

End FirstWalkEach.

Fixpoint firstWalk (n : Positioned) : Positioned * Q :=
  match n with
  | mkPositioned l f i x0 y0 w h cs =>
      match cs with
      | [] => (mkPositioned l f i 0 y0 w h [], w)
      | _ :: _ =>
          let '(cs', widthSum) := firstWalkEach firstWalk (List.length cs) cs 0 0 in
          (mkPositioned l f i (widthSum / 2 - w / 2) y0 w h cs', Qmax w widthSum)
      end
  end.

Section SecondWalkEach.

Variable secondWalk : Positioned -> Q -> Q -> Positioned.
Variables ox oy nheight : Q.

(** [n.children.forEach((c, idx) => ...)] of [secondWalk]; [done] are
    the children already walked, so [done ++ todo] is [n.children] as
    the callback finds it.  [shift] and [cx] are computed as in the
    source and, as in the source, nothing reads them. *)
Fixpoint secondWalkEach (done todo : list Positioned) (idx : nat) (cx : Q)
  : list Positioned :=
  match todo with
  | [] => done
  | c :: rest =>
      let prev := nth (idx - 1) (done ++ todo) c in
      let shift := if (idx =? 0)%nat then 0 else x prev + width prev + H_GAP - x c in
      let cx := x c + shift in
      let c' :=
        secondWalk c (ox + x c - x c + (if (idx =? 0)%nat then 0 else 0))
                     (oy + nheight + V_GAP) in
      secondWalkEach (done ++ [c']) rest (S idx) cx
  end.

End SecondWalkEach.

Fixpoint secondWalk (n : Positioned) (ox oy : Q) : Positioned :=
  match n with
  | mkPositioned l f i x0 y0 w h cs =>
      let cx := match cs with c0 :: _ => x c0 | [] => 0 end in
      mkPositioned l f i (x0 + ox) oy w h
        (secondWalkEach secondWalk ox oy h [] cs 0 cx)
  end.

(** [Math.min(minX, v)]. *)
Definition extMin (minX : ext) (v : Q) : Q :=
  match minX with
  | Infinity => v
  | Fin m => Qmin m v
  end.

(** The [visit] closure of the normalisation, for [minX]: the value of
    [minX] after the subtree of [n], from its value before.  ([maxX] and
    [maxY] are local to [layoutTree] and never read.) *)
Fixpoint visit (n : Positioned) (minX : ext) : Q :=
  match n with
  | mkPositioned _ _ _ x0 _ _ _ cs =>
      fold_left (fun m c => visit c (Fin m)) cs (extMin minX x0)
  end.

Fixpoint shift (n : Positioned) (dx : Q) : Positioned :=
  match n with
  | mkPositioned l f i x0 y0 w h cs =>
      mkPositioned l f i (x0 - dx) y0 w h (map (fun c => shift c dx) cs)
  end.

Definition layoutTree (root : Node) : Positioned :=
  let r := clone root in
  let '(r, totalW) := firstWalk r in
  let r := secondWalk r 0 0 in
  let minX := visit r Infinity in
  shift r minX.

(** [collectPositions]: the [walk] closure threads the map. *)
Fixpoint collectWalk (n : Positioned) (map : JsMap.t (list Positioned))
  : JsMap.t (list Positioned) :=
  match n with
  | mkPositioned _ _ i _ _ _ _ cs =>
      let map :=
        match i with
        | Some k =>
            if Js.truthy i then
              let arr := match JsMap.get map k with Some a => a | None => [] end in
              JsMap.set map k (arr ++ [n])
            else map
        | None => map
        end in
      fold_left (fun m c => collectWalk c m) cs map
  end.

Definition collectPositions (root : Positioned) : JsMap.t (list Positioned) :=
  collectWalk root JsMap.empty.

End Layout.

(** ** src/tree/render.ts: movement arcs *)

Module Render.

Import Layout.
Local Open Scope Q_scope.

(** A value of the map of [drawMovement]. *)
Record Rec := mkRec { origin : option Positioned; traces : list Positioned }.

(** The one kind of element [drawMovement] appends: a [path] whose [d]
    is [M x1 y1 C c1x c1y, c2x c2y, x2 y2]. *)
Record Path := mkPath {
  x1 : Q; y1 : Q;
  c1x : Q; c1y : Q;
  c2x : Q; c2y : Q;
  x2 : Q; y2 : Q;
  class : string;
  markerEnd : string
}.

Fixpoint walk (n : Positioned) (map : JsMap.t Rec) : JsMap.t Rec :=
  match n with
  | mkPositioned l _ i _ _ _ _ cs =>
      let map :=
        match i with
        | Some k =>
            if Js.truthy i then
              let isTrace := String.eqb l "t" in
              let rec :=
                match JsMap.get map k with
                | Some r => r
                | None => mkRec None []
                end in
              let rec :=
                if isTrace then mkRec (origin rec) (traces rec ++ [n])
                else mkRec (Some n) (traces rec) in
              JsMap.set map k rec
            else map
        | None => map
        end in
      fold_left (fun m c => walk c m) cs map
  end.

(** The path drawn for trace [t] of a group whose origin is [o]. *)
Definition movePath (o t : Positioned) : Path :=
  let x1 := x o + width o / 2 in
  let y1 := y o in
  let x2 := x t + width t / 2 in
  let y2 := y t + height t in
  let c1x := x1 in let c1y := y1 - 40 in
  let c2x := x2 in let c2y := y2 + 40 in
  mkPath x1 y1 c1x c1y c2x c2y x2 y2 "ling-tree-move" "url(#ling-tree-arrow)".

(** The callback of [map.forEach]: the paths one entry appends. *)
Definition drawGroup (r : Rec) : list Path :=
  match origin r with
  | None => []
  | Some o => map (movePath o) (traces r)
  end.

(** [drawMovement]: the paths appended to [svg], in order. *)
Definition drawMovement (root : Positioned) : list Path :=
  flat_map (fun kv => drawGroup (snd kv)) (walk root JsMap.empty).

End Render.

(** ** layoutTree on a store of objects

    The trees above are values.  To see what [layoutTree] writes, and
    where, the same function is modelled over a store: a list of objects
    addressed by their index, in which [children] and [parent] hold
    references. *)

Module Store.

Import Parse.
Local Open Scope Q_scope.

(** A reference is an index into the store. *)
Abbreviation loc := nat (only parsing).

(** An object.  A property that a plain [Node] does not have is [None];
    [parent] is absent, [null] or a reference. *)
Record Obj := mkObj {
  label : string;
  features : list Feature;
  id : option string;
  children : list loc;
  x : option Q;
  y : option Q;
  width : option Q;
  height : option Q;
  parent : option (option loc)
}.

Abbreviation store := (list Obj) (only parsing).

(** A computation on the store; [None] when it reads a reference or a
    number that is not there, or is out of fuel. *)
Definition M (A : Type) : Type := store -> option (A * store).

Definition ret {A} (a : A) : M A := fun h => Some (a, h).

Definition fail {A} : M A := fun _ => None.

Definition bind {A B} (m : M A) (k : A -> M B) : M B :=
  fun h =>
    match m h with
    | Some (a, h') => k a h'
    | None => None
    end.

Notation "x <~ m ;; k" := (bind m (fun x => k))
  (at level 100, m at next level, right associativity).

Definition read (l : loc) : M Obj :=
  fun h => match h !! l with Some o => Some (o, h) | None => None end.

(** The object literal of [clone]: a new object at the end of the store. *)
Definition alloc (o : Obj) : M loc :=
  fun h => Some (List.length h, h ++ [o]).

(** An assignment to properties of the object at [l]. *)
Definition modify (l : loc) (f : Obj -> Obj) : M unit :=
  fun h => match h !! l with Some o => Some (tt, <[l := f o]> h) | None => None end.

Definition num (v : option Q) : M Q :=
  match v with Some q => ret q | None => fail end.

Definition setX (v : Q) (o : Obj) : Obj :=
  mkObj (label o) (features o) (id o) (children o)
        (Some v) (y o) (width o) (height o) (parent o).

Definition setY (v : Q) (o : Obj) : Obj :=
  mkObj (label o) (features o) (id o) (children o)
        (x o) (Some v) (width o) (height o) (parent o).

Definition setChildren (cs : list loc) (o : Obj) : Obj :=
  mkObj (label o) (features o) (id o) cs
        (x o) (y o) (width o) (height o) (parent o).

(** [arr.map(f)] and [arr.forEach(f)] for an [f] that works on the store. *)
Fixpoint mapM {A B} (f : A -> M B) (l : list A) : M (list B) :=
  match l with
  | [] => ret []
  | a :: l' => b <~ f a ;; bs <~ mapM f l' ;; ret (b :: bs)
  end.

Fixpoint forEach {A} (f : A -> M unit) (l : list A) : M unit :=
  match l with
  | [] => ret tt
  | a :: l' => _ <~ f a ;; forEach f l'
  end.

Fixpoint clone (fuel : nat) (n : loc) (parent : option loc) : M loc :=
  match fuel with
  | 0%nat => fail
  | S fuel' =>
      o <~ read n ;;
      p <~ alloc (mkObj (label o) (features o) (id o) []
                        (Some 0) (Some 0)
                        (Some (Layout.measureText (label o) (features o)))
                        (Some Layout.NODE_H) (Some parent)) ;;
      cs <~ mapM (fun c => clone fuel' c (Some p)) (children o) ;;
      _ <~ modify p (setChildren cs) ;;
      ret p
  end.

Section FirstWalkEach.

Variable firstWalk : loc -> M Q.
Variable len : nat.

Fixpoint firstWalkEach (cs : list loc) (i : nat) (widthSum : Q) : M Q :=
  match cs with
  | [] => ret widthSum
  | c :: rest =>
      w <~ firstWalk c ;;
      let widthSum := widthSum + w in
      let widthSum := if (i <? len - 1)%nat then widthSum + Layout.H_GAP else widthSum in
      firstWalkEach rest (S i) widthSum
  end.

End FirstWalkEach.

Fixpoint firstWalk (fuel : nat) (n : loc) : M Q :=
  match fuel with
  | 0%nat => fail
  | S fuel' =>
      o <~ read n ;;
      match children o with
      | [] =>
          _ <~ modify n (setX 0) ;;
          o <~ read n ;;
          num (width o)
      | _ :: _ =>
          widthSum <~ firstWalkEach (firstWalk fuel') (List.length (children o))
                                    (children o) 0 0 ;;
          o <~ read n ;;
          w <~ num (width o) ;;
          _ <~ modify n (setX (widthSum / 2 - w / 2)) ;;
          ret (Qmax w widthSum)
      end
  end.

(** The reads for [shift] and [cx], which nothing uses, are left out:
    they write nothing. *)
Fixpoint secondWalk (fuel : nat) (n : loc) (ox oy : Q) : M unit :=
  match fuel with
  | 0%nat => fail
  | S fuel' =>
      o <~ read n ;;
      xv <~ num (x o) ;;
      _ <~ modify n (setX (xv + ox)) ;;
      _ <~ modify n (setY oy) ;;
      o <~ read n ;;
      forEach (fun c =>
                 oc <~ read c ;;
                 cx <~ num (x oc) ;;
                 on <~ read n ;;
                 nh <~ num (height on) ;;
                 secondWalk fuel' c (ox + cx - cx + 0) (oy + nh + Layout.V_GAP))
              (children o)
  end.

Section VisitEach.

Variable visit : loc -> ext -> M Q.

Fixpoint visitEach (cs : list loc) (minX : Q) : M Q :=
  match cs with
  | [] => ret minX
  | c :: rest => m <~ visit c (Fin minX) ;; visitEach rest m
  end.

End VisitEach.

Fixpoint visit (fuel : nat) (n : loc) (minX : ext) : M Q :=
  match fuel with
  | 0%nat => fail
  | S fuel' =>
      o <~ read n ;;
      xv <~ num (x o) ;;
      visitEach (visit fuel') (children o) (Layout.extMin minX xv)
  end.

Fixpoint shift (fuel : nat) (n : loc) (dx : Q) : M unit :=
  match fuel with
  | 0%nat => fail
  | S fuel' =>
      o <~ read n ;;
      xv <~ num (x o) ;;
      _ <~ modify n (setX (xv - dx)) ;;
      o <~ read n ;;
      forEach (fun c => shift fuel' c dx) (children o)
  end.

Definition layoutTree (fuel : nat) (root : loc) : M loc :=
  r <~ clone fuel root None ;;
  totalW <~ firstWalk fuel r ;;
  _ <~ secondWalk fuel r 0 0 ;;
  minX <~ visit fuel r Infinity ;;
  _ <~ shift fuel r minX ;;
  ret r.

(** *** Trees in the store *)

(** The store holds the tree [t] at [l]. *)
Inductive holdsNode (h : store) : loc -> Node -> Prop :=
| holds_node l o t :
    h !! l = Some o ->
    label o = Parse.label t ->
    features o = Parse.features t ->
    id o = Parse.id t ->
    Forall2 (holdsNode h) (children o) (Parse.children t) ->
    holdsNode h l t.

Fixpoint nodeSize (t : Node) : nat :=
  match t with
  | mkNode _ _ _ cs => S (list_sum (map nodeSize cs))
  end.

Fixpoint size (p : Layout.Positioned) : nat :=
  match p with
  | Layout.mkPositioned _ _ _ _ _ _ _ cs => S (list_sum (map size cs))
  end.

(** Where the subtrees [cs] start when the first starts at [a] and each
    takes as many consecutive places as it has nodes. *)
Fixpoint addrs (a : loc) (cs : list Layout.Positioned) : list loc :=
  match cs with
  | [] => []
  | c :: cs' => a :: addrs (a + size c)%nat cs'
  end.

Section HoldsAll.

Variable holdsPos : loc -> option loc -> Layout.Positioned -> Prop.

(** The subtrees [cs] one after the other from [b] on, each with parent
    [par]. *)
Fixpoint holdsAllWith (par : option loc) (b : loc) (cs : list Layout.Positioned) : Prop :=
  match cs with
  | [] => True
  | c :: cs' => holdsPos b par c /\ holdsAllWith par (b + size c)%nat cs'
  end.

End HoldsAll.

(** The store holds the positioned tree [p] at [a], in pre-order in
    consecutive places, with [par] as the parent of its root. *)
Fixpoint holdsPos (h : store) (a : loc) (par : option loc) (p : Layout.Positioned)
  {struct p} : Prop :=
  match p with
  | Layout.mkPositioned l f i x0 y0 w hh cs =>
      h !! a = Some (mkObj l f i (addrs (S a) cs)
                           (Some x0) (Some y0) (Some w) (Some hh) (Some par)) /\
      holdsAllWith (holdsPos h) (Some a) (S a) cs
  end.

Definition holdsAll (h : store) := holdsAllWith (holdsPos h).

(** The places a list of subtrees takes. *)
Definition sizes (cs : list Layout.Positioned) : nat := list_sum (map size cs).

(** [h'] is [h] on the [n] places from [a] on; [h'] is [h] everywhere
    else. *)
Definition agreeIn (h h' : store) (a n : nat) : Prop :=
  forall k, (a <= k < a + n)%nat -> h' !! k = h !! k.

Definition outside (h h' : store) (a n : nat) : Prop :=
  forall k, (k < a \/ a + n <= k)%nat -> h' !! k = h !! k.

End Store.

(** ** Vocabulary of the statements about the parser *)

Module Grammar.

Import Parse.

(** The leaf the loop builds from a bare symbol, the feature it builds
    from a signed symbol, and the node [parseNode] builds from a symbol. *)
Definition leafNode (t : Tok) : Node :=
  mkNode (Js.stripQuotes (value t)) [] None [].

Definition featureOf (t : Tok) : Feature :=
  mkFeature (if Js.startsWithPlus (value t) then Plus else Minus)
            (Js.stripSign (value t)).

Definition symNode (t : Tok) : Node :=
  mkNode (base (parseFeaturesPart (value t))) [] (hid (parseFeaturesPart (value t))) [].

Section Look.

Variable toks : list Tok.

(** The token under the cursor, as the parser looks at it. *)
Inductive Look (p : nat) : Prop :=
| LookEnd : nth_error toks p = None -> Look p
| LookSym t : nth_error toks p = Some t -> kind t = sym -> Look p
| LookClose t : nth_error toks p = Some t -> kind t = rbr \/ kind t = quote -> Look p
| LookFeature t f :
    nth_error toks p = Some t -> kind t = lbr ->
    nth_error toks (S p) = Some f -> isFeatureTok (Some f) = true -> Look p
| LookChild t :
    nth_error toks p = Some t -> kind t = lbr ->
    isFeatureTok (nth_error toks (S p)) = false -> Look p.

End Look.


End Grammar.

(** ** Vocabulary of the statements about the layout *)

Module Tree.

Import Layout.

(** The nodes of a positioned tree in pre-order. *)
Fixpoint nodes (n : Positioned) : list Positioned :=
  match n with
  | mkPositioned _ _ _ _ _ _ _ cs => n :: flat_map nodes cs
  end.

Local Open Scope Q_scope.

Definition Qsum (l : list Q) : Q := fold_right Qplus 0 l.

(** The horizontal span the sizing pass reports for a subtree, in the
    words of the specification: for a leaf its box width, otherwise the
    larger of the box width and the children's spans with one gap
    between neighbours. *)
Fixpoint subtreeSpan (n : Parse.Node) : Q :=
  match n with
  | Parse.mkNode _ _ _ cs =>
      match cs with
      | [] => measureLabel n
      | _ :: _ =>
          Qmax (measureLabel n)
               (Qsum (map subtreeSpan cs) + H_GAP * numOfNat (List.length cs - 1))
      end
  end.

(** [minX] after a sequence of nodes was visited. *)
Definition minOver (minX : ext) (l : list Positioned) : ext :=
  fold_left (fun a k => Fin (extMin a (x k))) l minX.

(** A positioned tree with its coordinates reset: what [layoutTree]
    leaves as the clone had it. *)
Fixpoint unplaced (n : Positioned) : Positioned :=
  match n with
  | mkPositioned l f i _ _ w h cs => mkPositioned l f i 0 0 w h (map unplaced cs)
  end.

(** The width [measureLabel] gives the label and features of a box. *)
Definition labelWidth (p : Positioned) : Q :=
  measureText (label p) (features p).

(** Every leaf of [p] has its box at x = [v]. *)
Definition leavesAt (v : Q) (p : Positioned) : Prop :=
  Forall (fun k => children k = [] -> x k == v) (nodes p).

End Tree.

(** ** Vocabulary of the statements about movement *)

Module Movement.

Import Layout Render.

(** What [walk] does to the map at one node. *)
Definition visitNode (map : JsMap.t Rec) (n : Positioned) : JsMap.t Rec :=
  match id n with
  | Some k =>
      if Js.truthy (id n) then
        let rec :=
          match JsMap.get map k with
          | Some r => r
          | None => mkRec None []
          end in
        JsMap.set map k
          (if String.eqb (label n) "t"
           then mkRec (origin rec) (traces rec ++ [n])
           else mkRec (Some n) (traces rec))
      else map
  | None => map
  end.

(** [n] carries the non-empty identifier [k]. *)
Definition hasKey (k : string) (n : Positioned) : bool :=
  match id n with
  | Some s => Js.truthy (Some s) && String.eqb s k
  | None => false
  end.

Definition isTrace (k : string) (n : Positioned) : bool :=
  hasKey k n && String.eqb (label n) "t".

Definition isOrigin (k : string) (n : Positioned) : bool :=
  hasKey k n && negb (String.eqb (label n) "t").

(** The last element of a list, if any. *)
Definition lastOf {A} (l : list A) : option A := last (map Some l) None.


(** The entry of key [k] after one more node. *)
Definition step (k : string) (r : option Rec) (n : Positioned) : option Rec :=
  if hasKey k n then
    let rec := match r with Some r => r | None => mkRec None [] end in
    Some (if String.eqb (label n) "t"
          then mkRec (origin rec) (traces rec ++ [n])
          else mkRec (Some n) (traces rec))
  else r.

(** Every node a group holds carries the key of the group, and no key
    is empty. *)
Definition keyed (m : JsMap.t Rec) : Prop :=
  forall k r, In (k, r) m ->
    k <> EmptyString /\
    (forall o, origin r = Some o -> id o = Some k) /\
    Forall (fun t => id t = Some k) (traces r).



(** The same for [collectPositions]. *)
Definition collectNode (map : JsMap.t (list Positioned)) (n : Positioned) :=
  match id n with
  | Some k =>
      if Js.truthy (id n) then
        JsMap.set map k
          (match JsMap.get map k with Some a => a | None => [] end ++ [n])
      else map
  | None => map
  end.


End Movement.

(** ** What each pass is shown to do on the store *)

Module StoreSpec.

Import Layout Store.

(** What [clone] is shown to do on a tree [t]. *)
Definition cloneSpec (t : Parse.Node) : Prop :=
  forall fuel h l par,
    holdsNode h l t -> nodeSize t <= fuel ->
    exists news,
      Store.clone fuel l par h = Some (List.length h, h ++ news) /\
      List.length news = nodeSize t /\
      holdsPos (h ++ news) (List.length h) par (Layout.clone t).

Definition firstWalkSpec (p : Positioned) : Prop :=
  forall fuel h a par,
    holdsPos h a par p -> size p <= fuel ->
    exists h',
      Store.firstWalk fuel a h = Some (snd (Layout.firstWalk p), h') /\
      List.length h' = List.length h /\
      outside h h' a (size p) /\
      holdsPos h' a par (fst (Layout.firstWalk p)).

Definition secondWalkSpec (p : Positioned) : Prop :=
  forall fuel h a par ox oy,
    holdsPos h a par p -> size p <= fuel ->
    exists h',
      Store.secondWalk fuel a ox oy h = Some (tt, h') /\
      List.length h' = List.length h /\
      outside h h' a (size p) /\
      holdsPos h' a par (Layout.secondWalk p ox oy).

Definition visitSpec (p : Positioned) : Prop :=
  forall fuel h a par minX,
    holdsPos h a par p -> size p <= fuel ->
    Store.visit fuel a minX h = Some (Layout.visit p minX, h).

Definition shiftSpec (p : Positioned) : Prop :=
  forall fuel h a par dx,
    holdsPos h a par p -> size p <= fuel ->
    exists h',
      Store.shift fuel a dx h = Some (tt, h') /\
      List.length h' = List.length h /\
      outside h h' a (size p) /\
      holdsPos h' a par (Layout.shift p dx).

End StoreSpec.

(** ** src/tree/render.ts: extent, edges, boxes and the whole drawing

    An element is a record of the attributes the source sets; the text of
    a path's [d] is kept as the numbers it is made of. *)

Module Scene.

Import Parse Layout Render.
Local Open Scope Q_scope.

(** The [visit] closure of [computeExtent]: [w] and [h] after the subtree
    of [n], from their values before. *)
Fixpoint extentVisit (n : Positioned) (wh : Q * Q) : Q * Q :=
  match n with
  | mkPositioned _ _ _ x0 y0 w0 h0 cs =>
      fold_left (fun a c => extentVisit c a) cs
                (Qmax (fst wh) (x0 + w0), Qmax (snd wh) (y0 + h0))
  end.

(** [computeExtent]: the pair of [w] and [h]. *)
Definition computeExtent (n : Positioned) : Q * Q := extentVisit n (0, 0).

(** The [path] of an edge, whose [d] is [M x1 y1 V mid H x2 V y2]. *)
Record EdgePath := mkEdgePath {
  ex1 : Q; ey1 : Q;
  emid : Q;
  ex2 : Q; ey2 : Q;
  eclass : string
}.

(** [drawEdges]: the paths appended to [svg], in order. *)
Fixpoint drawEdges (n : Positioned) : list EdgePath :=
  match n with
  | mkPositioned _ _ _ x0 y0 w0 h0 cs =>
      flat_map (fun c =>
                  let x1 := x0 + w0 / 2 in
                  let y1 := y0 + h0 in
                  let x2 := x c + width c / 2 in
                  let y2 := y c in
                  mkEdgePath x1 y1 ((y1 + y2) / 2) x2 y2 "ling-tree-edge"
                  :: drawEdges c) cs
  end.

Record Rect := mkRect {
  rectX : Q; rectY : Q; rectWidth : Q; rectHeight : Q; rx : Q; ry : Q
}.

Record Text := mkText { textX : Q; textY : Q; textContent : string }.

(** The [g] of one node: its box, its label and its feature badges. *)
Record NodeGroup := mkNodeGroup { rect : Rect; text : Text; badges : list Text }.

(** [`[${f.sign}${f.name}]`]. *)
Definition badgeText (f : Feature) : string :=
  ("[" ++ signText (sign f) ++ name f ++ "]")%string.

(** [n.features.forEach(f => ...)] of [drawNodes], from the value of
    [off] before: the badge texts. *)
Fixpoint drawBadges (ny : Q) (fs : list Feature) (off : Q) : list Text :=
  match fs with
  | [] => []
  | f :: fs' =>
      mkText (off - 8) (ny + 15) (badgeText f)
      :: drawBadges ny fs' (off - (numOfNat (String.length (badgeText f)) * 6 + 10))
  end.

(** [n.label + (n.id ? `#${n.id}` : empty)]. *)
Definition shownLabel (label : string) (id : option string) : string :=
  match id with
  | Some i => if Js.truthy id then (label ++ "#" ++ i)%string else label
  | None => label
  end.

(** [drawNodes]: the groups appended to [svg], in order. *)
Fixpoint drawNodes (n : Positioned) : list NodeGroup :=
  match n with
  | mkPositioned l f i x0 y0 w0 h0 cs =>
      mkNodeGroup
        (mkRect x0 y0 w0 h0 6 6)
        (mkText (x0 + 8) (y0 + 15) (shownLabel l i))
        (match f with
         | [] => []
         | _ :: _ => drawBadges y0 f (x0 + w0 - 8)
         end)
      :: flat_map drawNodes cs
  end.

Record Marker := mkMarker {
  markerId : string;
  markerWidth : Q; markerHeight : Q;
  refX : Q; refY : Q;
  orient : string;
  markerUnits : string;
  markerPath : string
}.

Definition arrowDef : Marker :=
  mkMarker "ling-tree-arrow" 10 10 9 3 "auto" "strokeWidth" "M0,0 L9,3 L0,6 Z".

(** The [svg] element: its [width] and [height] (the [viewBox] is
    [0 0 width height]) and its children in the order they are appended:
    the marker definition, the edges, the nodes, the movement paths. *)
Record Svg := mkSvg {
  svgWidth : Q;
  svgHeight : Q;
  defs : Marker;
  edges : list EdgePath;
  nodes : list NodeGroup;
  moves : list Path
}.

Definition renderTree (root : Node) : Svg :=
  let pos := layoutTree root in
  let w := fst (computeExtent pos) + 8 in
  let h := snd (computeExtent pos) + 8 in
  mkSvg w h arrowDef (drawEdges pos) (drawNodes pos) (drawMovement pos).

End Scene.

(** ** Vocabulary of the further statements *)

Module Tokens.

Import Parse.

(** How many of the tokens are of kind [k]. *)
Definition countKind (k : Kind) (toks : list Tok) : nat :=
  List.length (filter (fun t => kind_eqb (kind t) k) toks).

(** The text is made of white space only. *)
Fixpoint allSpace (s : string) : bool :=
  match s with
  | EmptyString => true
  | String c s' => Js.isSpace c && allSpace s'
  end.

(** What [tokenize] emits: no token of kind [quote]; a bracket token
    carries its bracket; the text of a symbol does not begin with a
    double quote. *)
Definition wellFormedTok (t : Tok) : Prop :=
  match kind t with
  | lbr => value t = "["
  | rbr => value t = "]"
  | sym => forall s', value t <> String Js.dquote s'
  | quote => False
  end.

(** The features of all the nodes of a tree. *)
Fixpoint featureCount (n : Node) : nat :=
  match n with
  | mkNode _ f _ cs => List.length f + list_sum (map featureCount cs)
  end.

(** The levels of a tree. *)
Fixpoint treeDepth (n : Node) : nat :=
  match n with
  | mkNode _ _ _ cs => S (list_max (map treeDepth cs))
  end.

(** The nodes and features a tree accounts for. *)
Definition weight (n : Node) : nat := Store.nodeSize n + featureCount n.

(** How many of the first [p] tokens are of kind [k]. *)
Definition seen (toks : list Tok) (k : Kind) (p : nat) : nat :=
  countKind k (firstn p toks).

(** The tokens from [p] to [q] have as many open as close brackets. *)
Definition balanced (toks : list Tok) (p q : nat) : Prop :=
  seen toks lbr q + seen toks rbr p = seen toks rbr q + seen toks lbr p.

End Tokens.

Module Shape.

Import Layout.
Local Open Scope Q_scope.

(** The nodes of a positioned tree in pre-order, each with its depth,
    the root being at depth [d]. *)
Fixpoint levels (d : nat) (n : Positioned) : list (nat * Positioned) :=
  match n with
  | mkPositioned _ _ _ _ _ _ _ cs => (d, n) :: flat_map (levels (S d)) cs
  end.

(** The parent-child pairs of a positioned tree, in the order
    [drawEdges] meets them. *)
Fixpoint links (n : Positioned) : list (Positioned * Positioned) :=
  match n with
  | mkPositioned _ _ _ _ _ _ _ cs => flat_map (fun c => (n, c) :: links c) cs
  end.

(** The span of a subtree as the sizing pass adds it up, from the widths
    of the boxes. *)
Fixpoint spanOf (n : Positioned) : Q :=
  match n with
  | mkPositioned _ _ _ _ _ w0 _ cs =>
      match cs with
      | [] => w0
      | _ :: _ =>
          Qmax w0 (Tree.Qsum (map spanOf cs) + H_GAP * numOfNat (List.length cs - 1))
      end
  end.

(** The x the sizing pass gives a node: 0 for a leaf, otherwise what
    centres the box over the span of the children. *)
Definition localOffset (n : Positioned) : Q :=
  match children n with
  | [] => 0
  | _ :: _ =>
      (Tree.Qsum (map spanOf (children n))
       + H_GAP * numOfNat (List.length (children n) - 1)) / 2 - width n / 2
  end.

(** The y a node at depth [e] gets when the root, at depth [d], is put
    at [oy] and every box is [NODE_H] high. *)
Definition rowOf (oy : Q) (d e : nat) : Q :=
  oy + (NODE_H + V_GAP) * (numOfNat e - numOfNat d).

(** Every box of [p] is at its own offset, less [m]. *)
Definition offsetsBy (m : Q) (p : Positioned) : Prop :=
  Forall (fun k => x k == localOffset k - m) (Tree.nodes p).

End Shape.

(** ** What the drawing functions make for one node, one edge, one key *)

Module Drawing.

Import Layout Scene.
Local Open Scope Q_scope.

(** [w] and [h] after one more node. *)
Definition grow (wh : Q * Q) (k : Positioned) : Q * Q :=
  (Qmax (fst wh) (x k + width k), Qmax (snd wh) (y k + height k)).

(** The group [drawNodes] makes for a node. *)
Definition groupOf (k : Positioned) : NodeGroup :=
  mkNodeGroup
    (mkRect (x k) (y k) (width k) (height k) 6 6)
    (mkText (x k + 8) (y k + 15) (shownLabel (label k) (id k)))
    (match features k with
     | [] => []
     | _ :: _ => drawBadges (y k) (features k) (x k + width k - 8)
     end).

(** The levels of a positioned tree. *)
Fixpoint depthOf (n : Positioned) : nat :=
  match n with
  | mkPositioned _ _ _ _ _ _ _ cs => S (list_max (map depthOf cs))
  end.

(** The path [drawEdges] makes for a parent and one of its children. *)
Definition edgeOf (pc : Positioned * Positioned) : EdgePath :=
  let x1 := x (fst pc) + width (fst pc) / 2 in
  let y1 := y (fst pc) + height (fst pc) in
  let x2 := x (snd pc) + width (snd pc) / 2 in
  let y2 := y (snd pc) in
  mkEdgePath x1 y1 ((y1 + y2) / 2) x2 y2 "ling-tree-edge".

End Drawing.

Module Groups.

Import Layout Render Movement.

(** Every node a group holds is one of [L]; its origin is not labelled
    [t] and its traces are. *)
Definition sorted (L : list Positioned) (m : JsMap.t Rec) : Prop :=
  forall k r, In (k, r) m ->
    (forall o, origin r = Some o -> In o L /\ String.eqb (label o) "t" = false) /\
    Forall (fun t => In t L /\ String.eqb (label t) "t" = true) (traces r).

(** The array of key [k] after one more node. *)
Definition collectStep (k : string) (a : option (list Positioned)) (n : Positioned)
  : option (list Positioned) :=
  if hasKey k n then Some (match a with Some a => a | None => [] end ++ [n]) else a.

End Groups.

(** * Properties *)

(** ** The parser *)

Section ParserFacts.

Import Parse Grammar.

Variable toks : list Tok.

Lemma parseNode_S fuel p :
  parseNode toks (S fuel) p =
  match nth_error toks p with
  | None => Throw UnexpectedEnd
  | Some t =>
      match kind t with
      | lbr =>
          (_ <- eat toks lbr ;;
           labelTok <- eat toks sym ;;
           let head := parseFeaturesPart (value labelTok) in
           body <- parseBody toks fuel [] [] ;;
           let '(features, children) := body in
           _ <- eat toks rbr ;;
           ret (mkNode (base head) features (hid head) children)) p
      | sym =>
          (s <- eat toks sym ;;
           let head := parseFeaturesPart (value s) in
           ret (mkNode (base head) [] (hid head) [])) p
      | _ => Throw BadToken
      end
  end.
Proof.
  cbn [parseNode]. unfold bind at 1, peek.
  destruct (nth_error toks p) as [t|]; [|reflexivity].
  destruct (kind t); reflexivity.
Qed.

Lemma parseBody_S fuel fs cs p :
  parseBody toks (S fuel) fs cs p =
  match nth_error toks p with
  | None => Throw UnclosedBracket
  | Some t2 =>
      match kind t2 with
      | lbr =>
          (_ <- eat toks lbr ;;
           maybe <- peek toks ;;
           if isFeatureTok maybe then
             featTok <- eat toks sym ;;
             let sign := if Js.startsWithPlus (value featTok) then Plus else Minus in
             let name := Js.stripSign (value featTok) in
             _ <- eat toks rbr ;;
             parseBody toks fuel (fs ++ [mkFeature sign name]) cs
           else
             _ <- setCursor p ;;
             c <- parseNode toks fuel ;;
             parseBody toks fuel fs (cs ++ [c])) p
      | sym =>
          (leaf <- eat toks sym ;;
           parseBody toks fuel fs
             (cs ++ [mkNode (Js.stripQuotes (value leaf)) [] None []])) p
      | rbr => Ok ((fs, cs), p)
      | quote => Ok ((fs, cs), p)
      end
  end.
Proof.
  cbn [parseBody]. unfold bind at 1, peek.
  destruct (nth_error toks p) as [t|]; [|reflexivity].
  destruct (kind t); reflexivity.
Qed.

(** The branches of [parseNode] and of its loop, one equation each. *)

Lemma parseNode_end fuel p :
  nth_error toks p = None -> parseNode toks (S fuel) p = Throw UnexpectedEnd.
Proof. intros E. rewrite parseNode_S, E. reflexivity. Qed.

Lemma parseNode_sym fuel p t :
  nth_error toks p = Some t -> kind t = sym ->
  parseNode toks (S fuel) p = Ok (symNode t, S p).
Proof.
  intros E K. rewrite parseNode_S, E, K. unfold bind, eat, ret.
  rewrite E, K. reflexivity.
Qed.

Lemma parseNode_bad fuel p t :
  nth_error toks p = Some t -> kind t = rbr \/ kind t = quote ->
  parseNode toks (S fuel) p = Throw BadToken.
Proof. intros E [K|K]; rewrite parseNode_S, E, K; reflexivity. Qed.

Lemma parseNode_open fuel p t :
  nth_error toks p = Some t -> kind t = lbr ->
  parseNode toks (S fuel) p =
  match nth_error toks (S p) with
  | None => Throw UnexpectedEndOfInput
  | Some labelTok =>
      if kind_eqb (kind labelTok) sym then
        match parseBody toks fuel [] [] (S (S p)) with
        | Ok ((features, children), q) =>
            match nth_error toks q with
            | None => Throw UnexpectedEndOfInput
            | Some r =>
                if kind_eqb (kind r) rbr then
                  Ok (mkNode (base (parseFeaturesPart (value labelTok))) features
                             (hid (parseFeaturesPart (value labelTok))) children, S q)
                else Throw (Expected rbr (kind r))
            end
        | Throw e => Throw e
        | OutOfFuel => OutOfFuel
        end
      else Throw (Expected sym (kind labelTok))
  end.
Proof.
  intros E K. rewrite parseNode_S, E, K. unfold bind, eat, ret.
  rewrite E, K. cbn [kind_eqb].
  destruct (nth_error toks (S p)) as [lt|]; [|reflexivity].
  destruct (kind_eqb (kind lt) sym); [|reflexivity].
  destruct (parseBody toks fuel [] [] (S (S p))) as [[[fs cs] q]| |]; try reflexivity.
  destruct (nth_error toks q) as [r|]; [|reflexivity].
  destruct (kind_eqb (kind r) rbr); reflexivity.
Qed.

Lemma parseBody_end fuel fs cs p :
  nth_error toks p = None -> parseBody toks (S fuel) fs cs p = Throw UnclosedBracket.
Proof. intros E. rewrite parseBody_S, E. reflexivity. Qed.

Lemma parseBody_close fuel fs cs p t :
  nth_error toks p = Some t -> kind t = rbr \/ kind t = quote ->
  parseBody toks (S fuel) fs cs p = Ok ((fs, cs), p).
Proof. intros E [K|K]; rewrite parseBody_S, E, K; reflexivity. Qed.

Lemma parseBody_sym fuel fs cs p t :
  nth_error toks p = Some t -> kind t = sym ->
  parseBody toks (S fuel) fs cs p = parseBody toks fuel fs (cs ++ [leafNode t]) (S p).
Proof.
  intros E K. rewrite parseBody_S, E, K. unfold bind, eat.
  rewrite E, K. reflexivity.
Qed.

Lemma parseBody_feature fuel fs cs p t f :
  nth_error toks p = Some t -> kind t = lbr ->
  nth_error toks (S p) = Some f -> isFeatureTok (Some f) = true ->
  parseBody toks (S fuel) fs cs p =
  match nth_error toks (S (S p)) with
  | None => Throw UnexpectedEndOfInput
  | Some r =>
      if kind_eqb (kind r) rbr
      then parseBody toks fuel (fs ++ [featureOf f]) cs (S (S (S p)))
      else Throw (Expected rbr (kind r))
  end.
Proof.
  intros E K E1 F. rewrite parseBody_S, E, K.
  unfold bind, eat, peek, getCursor. rewrite E, K. cbn [kind_eqb]. rewrite E1, F.
  cbn [isFeatureTok] in F. apply andb_prop in F as [F1 _]. rewrite E1, F1.
  destruct (nth_error toks (S (S p))) as [r|]; [|reflexivity].
  destruct (kind_eqb (kind r) rbr); reflexivity.
Qed.

Lemma parseBody_child fuel fs cs p t :
  nth_error toks p = Some t -> kind t = lbr ->
  isFeatureTok (nth_error toks (S p)) = false ->
  parseBody toks (S fuel) fs cs p =
  match parseNode toks fuel p with
  | Ok (c, q) => parseBody toks fuel fs (cs ++ [c]) q
  | Throw e => Throw e
  | OutOfFuel => OutOfFuel
  end.
Proof.
  intros E K F. rewrite parseBody_S, E, K.
  unfold bind, eat, peek, getCursor, setCursor. rewrite E, K. cbn [kind_eqb]. rewrite F.
  destruct (parseNode toks fuel p) as [[c q]| |]; reflexivity.
Qed.

Lemma look p : Look toks p.
Proof.
  destruct (nth_error toks p) as [t|] eqn:E; [|by apply LookEnd].
  destruct (kind t) eqn:K.
  - by eapply LookSym.
  - destruct (isFeatureTok (nth_error toks (S p))) eqn:F.
    + destruct (nth_error toks (S p)) as [f|] eqn:E1; [|discriminate].
      by eapply LookFeature.
    + by eapply LookChild.
  - eapply LookClose; eauto.
  - eapply LookClose; eauto.
Qed.

(** A run that did not run out of fuel gives the same outcome with
    more fuel. *)
Lemma fuel_mono_step fuel :
  (forall p, parseNode toks fuel p <> OutOfFuel ->
             parseNode toks (S fuel) p = parseNode toks fuel p) /\
  (forall fs cs p, parseBody toks fuel fs cs p <> OutOfFuel ->
             parseBody toks (S fuel) fs cs p = parseBody toks fuel fs cs p).
Proof.
  induction fuel as [|fuel [IHn IHb]]; split; intros; try (exfalso; apply H; reflexivity).
  - destruct (look p) as [E|t E K|t E K|t f E K _ _|t E K _].
    + by rewrite !parseNode_end.
    + by rewrite !(parseNode_sym _ _ _ E K).
    + by rewrite !(parseNode_bad _ _ _ E K).
    + rewrite (parseNode_open fuel _ _ E K) in H.
      rewrite !(parseNode_open _ _ _ E K).
      destruct (nth_error toks (S p)) as [lt|]; [|reflexivity].
      destruct (kind_eqb (kind lt) sym); [|reflexivity].
      rewrite IHb; [reflexivity|]. intros Eb. apply H. by rewrite Eb.
    + rewrite (parseNode_open fuel _ _ E K) in H.
      rewrite !(parseNode_open _ _ _ E K).
      destruct (nth_error toks (S p)) as [lt|]; [|reflexivity].
      destruct (kind_eqb (kind lt) sym); [|reflexivity].
      rewrite IHb; [reflexivity|]. intros Eb. apply H. by rewrite Eb.
  - destruct (look p) as [E|t E K|t E K|t f E K E1 F|t E K F].
    + by rewrite !parseBody_end.
    + rewrite (parseBody_sym fuel _ _ _ _ E K) in H.
      rewrite !(parseBody_sym _ _ _ _ _ E K). by apply IHb.
    + by rewrite !(parseBody_close _ _ _ _ _ E K).
    + rewrite (parseBody_feature fuel _ _ _ _ _ E K E1 F) in H.
      rewrite !(parseBody_feature _ _ _ _ _ _ E K E1 F).
      destruct (nth_error toks (S (S p))) as [r|]; [|reflexivity].
      destruct (kind_eqb (kind r) rbr); [|reflexivity]. by apply IHb.
    + rewrite (parseBody_child fuel _ _ _ _ E K F) in H.
      rewrite !(parseBody_child _ _ _ _ _ E K F).
      rewrite IHn; [|intros En; apply H; by rewrite En].
      destruct (parseNode toks fuel p) as [[c q]| |]; try reflexivity.
      by apply IHb.
Qed.

Lemma parseNode_fuel_mono fuel fuel' p :
  fuel <= fuel' -> parseNode toks fuel p <> OutOfFuel ->
  parseNode toks fuel' p = parseNode toks fuel p.
Proof.
  induction 1 as [|k Hle IH]; intros Hne; [reflexivity|].
  specialize (IH Hne).
  rewrite <- IH. apply fuel_mono_step. rewrite IH. exact Hne.
Qed.

(** Every [parseNode] that returns has moved the cursor forward. *)
Lemma cursor_progress fuel :
  (forall p n q, parseNode toks fuel p = Ok (n, q) -> p < q) /\
  (forall fs cs p r q, parseBody toks fuel fs cs p = Ok (r, q) -> p <= q).
Proof.
  induction fuel as [|fuel [IHn IHb]]; split; intros; try discriminate.
  - destruct (look p) as [E|t E K|t E K|t f E K _ _|t E K _].
    + rewrite parseNode_end in H by done. discriminate.
    + rewrite (parseNode_sym _ _ _ E K) in H. injection H as _ <-. lia.
    + rewrite (parseNode_bad _ _ _ E K) in H. discriminate.
    + rewrite (parseNode_open _ _ _ E K) in H.
      repeat case_match; simplify_eq.
      match goal with Hb : parseBody _ _ _ _ _ = Ok _ |- _ => apply IHb in Hb end. lia.
    + rewrite (parseNode_open _ _ _ E K) in H.
      repeat case_match; simplify_eq.
      match goal with Hb : parseBody _ _ _ _ _ = Ok _ |- _ => apply IHb in Hb end. lia.
  - destruct (look p) as [E|t E K|t E K|t f E K E1 F|t E K F].
    + rewrite parseBody_end in H by done. discriminate.
    + rewrite (parseBody_sym _ _ _ _ _ E K) in H. apply IHb in H. lia.
    + rewrite (parseBody_close _ _ _ _ _ E K) in H. injection H as _ <-. lia.
    + rewrite (parseBody_feature _ _ _ _ _ _ E K E1 F) in H.
      repeat case_match; simplify_eq. apply IHb in H. lia.
    + rewrite (parseBody_child _ _ _ _ _ E K F) in H.
      destruct (parseNode toks fuel p) as [[c q']| |] eqn:En; try discriminate.
      apply IHn in En. apply IHb in H. lia.
Qed.

(** Two units of fuel for each token still to read are enough. *)
Lemma enough_fuel fuel :
  (forall p, 1 <= fuel -> 2 * (List.length toks - p) <= fuel ->
             parseNode toks fuel p <> OutOfFuel) /\
  (forall fs cs p, 2 * (List.length toks - p) + 1 <= fuel ->
             parseBody toks fuel fs cs p <> OutOfFuel).
Proof.
  induction fuel as [|fuel [IHn IHb]]; split; intros; try lia.
  - destruct (look p) as [E|t E K|t E K|t f E K _ _|t E K _].
    + by rewrite parseNode_end.
    + by rewrite (parseNode_sym _ _ _ E K).
    + by rewrite (parseNode_bad _ _ _ E K).
    + rewrite (parseNode_open _ _ _ E K).
      destruct (nth_error toks (S p)) as [lt|] eqn:E1; [|done].
      assert (S p < List.length toks) by (apply nth_error_Some; congruence).
      destruct (kind_eqb (kind lt) sym); [|done].
      assert (Hb : parseBody toks fuel [] [] (S (S p)) <> OutOfFuel) by (apply IHb; lia).
      repeat case_match; done.
    + rewrite (parseNode_open _ _ _ E K).
      destruct (nth_error toks (S p)) as [lt|] eqn:E1; [|done].
      assert (S p < List.length toks) by (apply nth_error_Some; congruence).
      destruct (kind_eqb (kind lt) sym); [|done].
      assert (Hb : parseBody toks fuel [] [] (S (S p)) <> OutOfFuel) by (apply IHb; lia).
      repeat case_match; done.
  - destruct (look p) as [E|t E K|t E K|t f E K E1 F|t E K F].
    + by rewrite parseBody_end.
    + rewrite (parseBody_sym _ _ _ _ _ E K).
      assert (p < List.length toks) by (apply nth_error_Some; congruence).
      apply IHb. lia.
    + by rewrite (parseBody_close _ _ _ _ _ E K).
    + rewrite (parseBody_feature _ _ _ _ _ _ E K E1 F).
      assert (S p < List.length toks) by (apply nth_error_Some; congruence).
      repeat case_match; try done. apply IHb. lia.
    + rewrite (parseBody_child _ _ _ _ _ E K F).
      assert (p < List.length toks) by (apply nth_error_Some; congruence).
      destruct (parseNode toks fuel p) as [[c q]| |] eqn:En; [|done|].
      * apply (proj1 (cursor_progress fuel)) in En. apply IHb. lia.
      * exfalso. revert En. apply IHn; lia.
Qed.

Lemma parseNode_settled p : parseNode toks (parseFuel toks) p <> OutOfFuel.
Proof. apply enough_fuel; unfold parseFuel; lia. Qed.

(** Whatever a run with some fuel returned or threw is what the run
    inside [parseTree] gives. *)
Lemma parseNode_any_fuel fuel p :
  parseNode toks fuel p <> OutOfFuel ->
  parseNode toks (parseFuel toks) p = parseNode toks fuel p.
Proof.
  intros H. destruct (Nat.le_ge_cases fuel (parseFuel toks)) as [Hle|Hle].
  - by apply parseNode_fuel_mono.
  - symmetry. apply parseNode_fuel_mono; [done|]. apply parseNode_settled.
Qed.

End ParserFacts.

Section TokenizerFacts.

Import Parse.

Lemma scanQuoted_length s : String.length (snd (scanQuoted s)) <= String.length s.
Proof.
  induction s as [|c s IH]; cbn; [lia|].
  destruct (Ascii.eqb c Js.dquote); cbn; [lia|].
  destruct (scanQuoted s); cbn in *; lia.
Qed.

Lemma scanSymbol_length s : String.length (snd (scanSymbol s)) <= String.length s.
Proof.
  induction s as [|c s IH]; cbn; [lia|].
  destruct (Js.isSpaceOrBracket c); cbn; [lia|].
  destruct (scanSymbol s); cbn in *; lia.
Qed.

Lemma tokenizeLoop_settled fuel s out :
  String.length s < fuel -> tokenizeLoop fuel s out <> OutOfFuel.
Proof.
  revert s out. induction fuel as [|fuel IH]; intros s out Hlt; [lia|].
  destruct s as [|c s]; cbn [tokenizeLoop]; [done|]. cbn in Hlt.
  destruct (Js.isSpace c) eqn:Esp; [apply IH; lia|].
  destruct (Ascii.eqb c "[") eqn:El; [apply IH; lia|].
  destruct (Ascii.eqb c "]") eqn:Er; [apply IH; lia|].
  destruct (Ascii.eqb c Js.dquote).
  - pose proof (scanQuoted_length s) as Hq.
    destruct (scanQuoted s) as [buf rest]; cbn in Hq.
    destruct rest as [|d rest]; [done|]. cbn in Hq. apply IH. lia.
  - cbn [scanSymbol]. unfold Js.isSpaceOrBracket. rewrite Esp, El, Er. cbn [orb].
    pose proof (scanSymbol_length s) as Hq.
    destruct (scanSymbol s) as [buf rest]; cbn in Hq. apply IH. lia.
Qed.

Lemma tokenize_settled src : tokenize src <> OutOfFuel.
Proof. apply tokenizeLoop_settled. lia. Qed.

(** [parseTree] returns a tree or throws: the fuel of the embedding
    never runs out. *)
Lemma parseTree_settled src : parseTree src <> OutOfFuel.
Proof.
  unfold parseTree. pose proof (tokenize_settled src).
  destruct (tokenize src) as [toks| |]; try done.
  pose proof (parseNode_settled toks 0).
  destruct (parseNode toks (parseFuel toks) 0) as [[root p]| |]; try done.
  by destruct (p =? List.length toks).
Qed.

End TokenizerFacts.

Section ParserClaims.

Import Parse Grammar.

Lemma indexOf_split c s : forall h,
  Js.indexOf c s = Some h ->
  s = (Js.sliceTo h s ++ String c (Js.sliceFrom (h + 1) s))%string /\
  Js.indexOf c (Js.sliceTo h s) = None.
Proof.
  induction s as [|d s IH]; intros h H; [discriminate|]. cbn [Js.indexOf] in H.
  destruct (Ascii.eqb_spec d c) as [->|Hne].
  - injection H as <-. by split.
  - destruct (Js.indexOf c s) as [j|]; [|discriminate]. injection H as <-.
    destruct (IH j eq_refl) as [E1 E2]. cbn [Js.sliceTo Js.sliceFrom Nat.add Js.indexOf].
    apply Ascii.eqb_neq in Hne. rewrite Hne, E2. split; [|done].
    cbn [append]. by rewrite <- E1.
Qed.




(** C2 (as the code has it).  A bare symbol in a node's body becomes a
    leaf whose label is the whole token and which has no identifier:
    [t#wh] written as a leaf child keeps its hash in the label, while
    the same token as the root symbol or as the label of a bracketed
    node is split into label [t] and identifier [wh]. *)
Theorem leaf_child_keeps_hash :
  parseTree "[VP t#wh]" = Ok (mkNode "VP" [] None [mkNode "t#wh" [] None []]) /\
  parseTree "t#wh" = Ok (mkNode "t" [] (Some "wh") []) /\
  parseTree "[VP [t#wh]]" = Ok (mkNode "VP" [] None [mkNode "t" [] (Some "wh") []]).
Proof. repeat split; vm_compute; reflexivity. Qed.

(** C4.  In a node's body, at an open bracket: when the token after it
    is a symbol that starts with [+] or [-], the loop takes it as a
    feature (the sign recorded, the name without it) and wants a close
    bracket next; otherwise the cursor goes back to the open bracket and
    a child is parsed from there.  The example of the specification
    parses accordingly. *)
Theorem feature_group_or_child :
  (forall toks fuel fs cs p t,
      nth_error toks p = Some t -> kind t = lbr ->
      let child :=
        match parseNode toks fuel p with
        | Ok (c, q) => parseBody toks fuel fs (cs ++ [c]) q
        | Throw e => Throw e
        | OutOfFuel => OutOfFuel
        end in
      parseBody toks (S fuel) fs cs p =
      match nth_error toks (S p) with
      | Some f =>
          if kind_eqb (kind f) sym && Js.startsWithSign (value f) then
            match nth_error toks (S (S p)) with
            | None => Throw UnexpectedEndOfInput
            | Some r =>
                if kind_eqb (kind r) rbr
                then parseBody toks fuel (fs ++ [featureOf f]) cs (S (S (S p)))
                else Throw (Expected rbr (kind r))
            end
          else child
      | None => child
      end) /\
  (forall c nm, Js.startsWithSign (String c nm) = true ->
      (c = "+"%char \/ c = "-"%char) /\
      featureOf (mkTok sym (String c nm)) =
      mkFeature (if Ascii.eqb c "+" then Plus else Minus) nm) /\
  parseTree "[CP[+WH][-Q] [C did]]" =
  Ok (mkNode "CP" [mkFeature Plus "WH"; mkFeature Minus "Q"] None
        [mkNode "C" [] None [mkNode "did" [] None []]]).
Proof.
  split; [|split].
  - intros toks fuel fs cs p t E K child. subst child.
    destruct (nth_error toks (S p)) as [f|] eqn:E1.
    + destruct (kind_eqb (kind f) sym && Js.startsWithSign (value f)) eqn:F.
      * by apply parseBody_feature with t.
      * apply parseBody_child with t; [done..|]. by rewrite E1.
    + apply parseBody_child with t; [done..|]. by rewrite E1.
  - intros c nm H. cbn in H. unfold featureOf. cbn.
    destruct (Ascii.eqb_spec c "+") as [->|Hp]; [by auto|].
    destruct (Ascii.eqb_spec c "-") as [->|Hm]; [by auto|]. discriminate.
  - vm_compute. reflexivity.
Qed.

Lemma feature_group_or_child_witness :
  let toks := [mkTok lbr "["; mkTok sym "CP"; mkTok lbr "["; mkTok sym "+WH";
               mkTok rbr "]"; mkTok rbr "]"] in
  parseBody toks 3 [] [] 2 = Ok (([mkFeature Plus "WH"], []), 5).
Proof.
  intros toks.
  rewrite (proj1 feature_group_or_child toks 2 [] [] 2 (mkTok lbr "["));
    reflexivity.
Defined.

(** C7.  [parseTree] returns a tree only when [parseNode], started at
    the first token, stops exactly at the end of the token array; when
    it stops earlier, [parseTree] throws the extra-input error. *)
Theorem parseTree_whole_input src :
  (forall root, parseTree src = Ok root ->
      exists toks fuel, tokenize src = Ok toks /\
                        parseNode toks fuel 0 = Ok (root, List.length toks)) /\
  (forall toks fuel root p,
      tokenize src = Ok toks ->
      parseNode toks fuel 0 = Ok (root, p) ->
      p <> List.length toks ->
      parseTree src = Throw ExtraInput).
Proof.
  split.
  - unfold parseTree. intros root H.
    destruct (tokenize src) as [toks| |]; try discriminate.
    destruct (parseNode toks (parseFuel toks) 0) as [[r p]| |] eqn:E; try discriminate.
    destruct (Nat.eqb_spec p (List.length toks)) as [->|]; [|discriminate].
    injection H as ->. by exists toks, (parseFuel toks).
  - intros toks fuel root p Ht Hn Hp. unfold parseTree. rewrite Ht.
    rewrite (parseNode_any_fuel toks fuel 0) by (rewrite Hn; discriminate).
    rewrite Hn. by destruct (Nat.eqb_spec p (List.length toks)).
Qed.

Lemma parseTree_whole_input_witness : parseTree "[A] [B]" = Throw ExtraInput.
Proof.
  apply (proj2 (parseTree_whole_input "[A] [B]")
           [mkTok lbr "["; mkTok sym "A"; mkTok rbr "]";
            mkTok lbr "["; mkTok sym "B"; mkTok rbr "]"]
           2 (mkNode "A" [] None []) 3).
  - reflexivity.
  - reflexivity.
  - discriminate.
Defined.

End ParserClaims.

(** ** The layout *)

Section LayoutFacts.

Import Layout Tree.
Local Open Scope Q_scope.

Lemma Positioned_tree_ind (P : Positioned -> Prop) :
  (forall l f i x0 y0 w h cs, Forall P cs -> P (mkPositioned l f i x0 y0 w h cs)) ->
  forall n, P n.
Proof.
  intros H. fix IH 1. intros [l f i x0 y0 w h cs]. apply H.
  induction cs as [|c cs IHcs]; constructor; [apply IH|apply IHcs].
Qed.

Lemma Node_tree_ind (P : Parse.Node -> Prop) :
  (forall l f i cs, Forall P cs -> P (Parse.mkNode l f i cs)) ->
  forall n, P n.
Proof.
  intros H. fix IH 1. intros [l f i cs]. apply H.
  induction cs as [|c cs IHcs]; constructor; [apply IH|apply IHcs].
Qed.

(** The loop of [secondWalk] hands every child the offsets of its
    parent. *)
Lemma secondWalkEach_map sw ox oy h todo : forall done idx cx,
  secondWalkEach sw ox oy h done todo idx cx =
  done ++ map (fun c => sw c (ox + x c - x c + 0) (oy + h + V_GAP)) todo.
Proof.
  induction todo as [|c todo IH]; intros done idx cx; cbn [secondWalkEach map].
  - by rewrite app_nil_r.
  - rewrite IH, <- app_assoc. cbn [app]. by destruct (idx =? 0)%nat.
Qed.

Lemma secondWalk_eq l f i x0 y0 w h cs ox oy :
  secondWalk (mkPositioned l f i x0 y0 w h cs) ox oy =
  mkPositioned l f i (x0 + ox) oy w h
    (map (fun c => secondWalk c (ox + x c - x c + 0) (oy + h + V_GAP)) cs).
Proof. cbn [secondWalk]. by rewrite secondWalkEach_map. Qed.

(** *** Normalisation *)

Lemma minOver_app a l1 l2 : minOver a (l1 ++ l2) = minOver (minOver a l1) l2.
Proof. apply fold_left_app. Qed.

Lemma visit_minOver n : forall minX, Fin (visit n minX) = minOver minX (nodes n).
Proof.
  induction n as [l f i x0 y0 w h cs IH] using Positioned_tree_ind. intros minX.
  cbn [visit nodes]. unfold minOver at 1. cbn [fold_left x].
  generalize (extMin minX x0) as m. clear minX.
  induction IH as [|c cs Hc _ IHcs]; intros m; cbn [fold_left flat_map]; [reflexivity|].
  rewrite IHcs. fold (minOver (Fin m) (nodes c ++ flat_map nodes cs)).
  by rewrite minOver_app, <- Hc.
Qed.

Lemma minOver_cons a k l :
  minOver a (k :: l) = minOver (Fin (extMin a (x k))) l.
Proof. reflexivity. Qed.

Lemma minOver_Fin a l : exists m, minOver (Fin a) l = Fin m /\ m <= a.
Proof.
  revert a. induction l as [|k l IH]; intros a.
  - exists a. split; [reflexivity|lra].
  - rewrite minOver_cons. cbn [extMin].
    destruct (IH (Qmin a (x k))) as (m & -> & Hm). exists m. split; [reflexivity|].
    pose proof (Q.le_min_l a (x k)). lra.
Qed.

Lemma minOver_lower l : forall a m,
  minOver a l = Fin m -> Forall (fun k => m <= x k) l.
Proof.
  induction l as [|k l IH]; intros a m H; constructor.
  - rewrite minOver_cons in H.
    destruct (minOver_Fin (extMin a (x k)) l) as (m' & E & Hm').
    rewrite E in H. injection H as <-.
    destruct a as [|a]; cbn [extMin] in Hm'; [lra|].
    pose proof (Q.le_min_r a (x k)). lra.
  - by apply (IH (Fin (extMin a (x k)))).
Qed.

Lemma minOver_attained l : forall a m,
  minOver a l = Fin m ->
  (exists k, In k l /\ m == x k) \/ (exists v, a = Fin v /\ m == v).
Proof.
  induction l as [|k l IH]; intros a m H.
  - right. exists m. split; [done|reflexivity].
  - rewrite minOver_cons in H.
    destruct (IH _ _ H) as [(k' & Hin & E)|(v & Hv & E)].
    + left. exists k'. split; [by right|done].
    + injection Hv as <-. destruct a as [|a]; cbn [extMin] in E.
      * left. exists k. split; [by left|done].
      * destruct (Q.min_spec a (x k)) as [[_ Hmin]|[_ Hmin]].
        -- right. exists a. split; [done|]. by rewrite E, Hmin.
        -- left. exists k. split; [by left|]. by rewrite E, Hmin.
Qed.

Lemma nodes_shift n dx : nodes (shift n dx) = map (fun k => shift k dx) (nodes n).
Proof.
  induction n as [l f i x0 y0 w h cs IH] using Positioned_tree_ind.
  cbn [shift nodes map]. f_equal.
  induction IH as [|c cs Hc _ IHcs]; cbn [map flat_map]; [reflexivity|].
  by rewrite map_app, Hc, IHcs.
Qed.

Lemma x_shift n dx : x (shift n dx) = x n - dx.
Proof. by destruct n. Qed.

(** C8.  In the tree [layoutTree] returns no box starts left of 0 and
    some box starts at 0. *)
Theorem layoutTree_leftmost_at_zero root :
  (forall n, In n (nodes (layoutTree root)) -> 0 <= x n) /\
  (exists n, In n (nodes (layoutTree root)) /\ x n == 0).
Proof.
  unfold layoutTree. destruct (firstWalk (clone root)) as [r0 totalW].
  set (r := secondWalk r0 0 0).
  pose proof (visit_minOver r Infinity) as Hv. symmetry in Hv.
  split.
  - intros n Hn. rewrite nodes_shift in Hn. apply in_map_iff in Hn as (k & <- & Hk).
    rewrite x_shift. apply minOver_lower in Hv.
    rewrite Forall_forall in Hv. specialize (Hv k Hk). lra.
  - destruct (minOver_attained _ _ _ Hv) as [(k & Hk & E)|(v & Hv' & _)]; [|discriminate].
    exists (shift k (visit r Infinity)). split.
    + rewrite nodes_shift. apply in_map_iff. by exists k.
    + rewrite x_shift. lra.
Qed.

(** *** Box sizes *)

Lemma unplaced_clone n : unplaced (clone n) = clone n.
Proof.
  induction n as [l f i cs IH] using Node_tree_ind. cbn [clone unplaced]. f_equal.
  rewrite map_map. induction IH as [|c cs Hc _ IHcs]; cbn [map]; [reflexivity|].
  by rewrite Hc, IHcs.
Qed.

Lemma unplaced_firstWalkEach len cs :
  Forall (fun c => unplaced (fst (firstWalk c)) = unplaced c) cs ->
  forall i ws,
    map unplaced (fst (firstWalkEach firstWalk len cs i ws)) = map unplaced cs.
Proof.
  induction 1 as [|c cs Hc _ IH]; intros i ws; cbn [firstWalkEach map]; [reflexivity|].
  destruct (firstWalk c) as [c' w]. cbn [fst] in Hc.
  match goal with |- context [firstWalkEach _ _ _ ?j ?v] =>
    specialize (IH j v); destruct (firstWalkEach firstWalk len cs j v) end.
  cbn [fst map] in *. by rewrite Hc, IH.
Qed.

Lemma unplaced_firstWalk n : unplaced (fst (firstWalk n)) = unplaced n.
Proof.
  induction n as [l f i x0 y0 w h cs IH] using Positioned_tree_ind.
  destruct cs as [|c cs]; [reflexivity|].
  cbn [firstWalk].
  pose proof (unplaced_firstWalkEach (List.length (c :: cs)) _ IH 0%nat 0) as E.
  destruct (firstWalkEach firstWalk (List.length (c :: cs)) (c :: cs) 0 0).
  cbn [fst unplaced] in *. by rewrite E.
Qed.

Lemma unplaced_secondWalk n : forall ox oy, unplaced (secondWalk n ox oy) = unplaced n.
Proof.
  induction n as [l f i x0 y0 w h cs IH] using Positioned_tree_ind. intros ox oy.
  rewrite secondWalk_eq. cbn [unplaced]. f_equal. rewrite map_map.
  induction IH as [|c cs Hc _ IHcs]; cbn [map]; [reflexivity|].
  by rewrite Hc, IHcs.
Qed.

Lemma unplaced_shift n dx : unplaced (shift n dx) = unplaced n.
Proof.
  induction n as [l f i x0 y0 w h cs IH] using Positioned_tree_ind.
  cbn [shift unplaced]. f_equal. rewrite map_map.
  induction IH as [|c cs Hc _ IHcs]; cbn [map]; [reflexivity|].
  by rewrite Hc, IHcs.
Qed.

(** [layoutTree] changes coordinates only. *)
Lemma unplaced_layoutTree root : unplaced (layoutTree root) = clone root.
Proof.
  unfold layoutTree. pose proof (unplaced_firstWalk (clone root)) as E.
  destruct (firstWalk (clone root)) as [r totalW]. cbn [fst] in E.
  by rewrite unplaced_shift, unplaced_secondWalk, E, unplaced_clone.
Qed.

Lemma nodes_unplaced n : nodes (unplaced n) = map unplaced (nodes n).
Proof.
  induction n as [l f i x0 y0 w h cs IH] using Positioned_tree_ind.
  cbn [unplaced nodes map]. f_equal.
  induction IH as [|c cs Hc _ IHcs]; cbn [map flat_map]; [reflexivity|].
  by rewrite map_app, Hc, IHcs.
Qed.

Lemma clone_measured n :
  Forall (fun p => width p = labelWidth p /\ height p = NODE_H) (nodes (clone n)).
Proof.
  induction n as [l f i cs IH] using Node_tree_ind. cbn [clone nodes].
  constructor; [by split|].
  induction IH as [|c cs Hc _ IHcs]; cbn [map flat_map]; [constructor|].
  apply Forall_app. by split.
Qed.

Lemma numOfNat_S k : numOfNat (S k) == numOfNat k + 1.
Proof. unfold numOfNat. by rewrite Nat2Z.inj_succ, <- Z.add_1_r, inject_Z_plus. Qed.

Lemma firstWalkEach_sum len cs :
  Forall (fun c => snd (firstWalk (clone c)) == subtreeSpan c) cs ->
  forall i ws, (i + List.length cs = len)%nat ->
    snd (firstWalkEach firstWalk len (map clone cs) i ws) ==
    ws + Qsum (map subtreeSpan cs) + H_GAP * numOfNat (List.length cs - 1).
Proof.
  induction 1 as [|c cs Hc _ IH]; intros i ws Hlen; cbn [firstWalkEach map].
  - change (ws == ws + 0 + H_GAP * 0). lra.
  - destruct (firstWalk (clone c)) as [c' w]. cbn [snd] in Hc.
    cbn [List.length] in Hlen.
    match goal with |- context [firstWalkEach _ _ _ ?j ?v] =>
      specialize (IH j v ltac:(lia));
      destruct (firstWalkEach firstWalk len (map clone cs) j v) as [rest' ws'] end.
    cbn [snd] in *. rewrite IH. cbn [Qsum fold_right List.length]. fold (Qsum (map subtreeSpan cs)).
    destruct cs as [|d cs].
    + replace (i <? len - 1)%nat with false by (symmetry; apply Nat.ltb_ge; cbn in Hlen; lia).
      change (ws + w + 0 + H_GAP * 0 == ws + (subtreeSpan c + 0) + H_GAP * 0). rewrite Hc. lra.
    + replace (i <? len - 1)%nat with true by (symmetry; apply Nat.ltb_lt; cbn in Hlen; lia).
      cbn [List.length]. rewrite !Nat.sub_succ, !Nat.sub_0_r, numOfNat_S. lra.
Qed.

Lemma firstWalk_span n : snd (firstWalk (clone n)) == subtreeSpan n.
Proof.
  induction n as [l f i cs IH] using Node_tree_ind.
  destruct cs as [|c cs]; [reflexivity|].
  cbn [clone firstWalk subtreeSpan map].
  change (clone c :: map clone cs) with (map clone (c :: cs)).
  pose proof (firstWalkEach_sum (List.length (map clone (c :: cs))) _ IH 0%nat 0) as E.
  rewrite length_map in E. specialize (E eq_refl).
  rewrite length_map.
  destruct (firstWalkEach firstWalk (List.length (c :: cs)) (map clone (c :: cs)) 0 0)
    as [cs' ws].
  cbn [snd] in *. rewrite E. apply Q.max_compat; [reflexivity|]. cbn [map]. lra.
Qed.

(** C3 (as the code has it).  Every box of the tree [layoutTree]
    returns, of a leaf or of an inner node, has the width measured from
    its own label and features and the fixed height; the larger of that
    width and the children's spans with their gaps is the span the
    sizing pass returns for the subtree, which no box stores. *)
Theorem box_width_is_label_width root :
  (forall p, In p (nodes (layoutTree root)) ->
             width p = labelWidth p /\ height p = NODE_H) /\
  snd (firstWalk (clone root)) == subtreeSpan root.
Proof.
  split; [|apply firstWalk_span].
  intros p Hp.
  apply (in_map unplaced) in Hp.
  rewrite <- nodes_unplaced, unplaced_layoutTree in Hp.
  pose proof (clone_measured root) as H. rewrite Forall_forall in H.
  specialize (H _ Hp). by destruct p.
Qed.

(** *** Where the leaves go *)

Lemma leavesAt_eq v l f i x0 y0 w h cs :
  leavesAt v (mkPositioned l f i x0 y0 w h cs) <->
  (cs = [] -> x0 == v) /\ Forall (leavesAt v) cs.
Proof.
  unfold leavesAt. cbn [nodes]. rewrite Forall_cons_iff, Forall_flat_map. reflexivity.
Qed.

Lemma firstWalkEach_leaves len cs :
  Forall (fun c => leavesAt 0 (fst (firstWalk c))) cs ->
  forall i ws, Forall (leavesAt 0) (fst (firstWalkEach firstWalk len cs i ws)).
Proof.
  induction 1 as [|c cs Hc _ IH]; intros i ws; cbn [firstWalkEach]; [constructor|].
  destruct (firstWalk c) as [c' w]. cbn [fst] in Hc.
  match goal with |- context [firstWalkEach _ _ _ ?j ?v] =>
    specialize (IH j v); destruct (firstWalkEach firstWalk len cs j v) end.
  cbn [fst] in *. by constructor.
Qed.

Lemma firstWalk_leaves p : leavesAt 0 (fst (firstWalk p)).
Proof.
  induction p as [l f i x0 y0 w h cs IH] using Positioned_tree_ind.
  destruct cs as [|c cs].
  - cbn [firstWalk fst]. apply leavesAt_eq. split; [reflexivity|constructor].
  - cbn [firstWalk].
    pose proof (firstWalkEach_leaves (List.length (c :: cs)) _ IH 0%nat 0) as Hl.
    assert (Hall : Forall (fun c => unplaced (fst (firstWalk c)) = unplaced c) (c :: cs))
      by (apply Forall_forall; intros q _; apply unplaced_firstWalk).
    pose proof (unplaced_firstWalkEach (List.length (c :: cs)) _ Hall 0%nat 0) as Hu.
    destruct (firstWalkEach firstWalk (List.length (c :: cs)) (c :: cs) 0 0) as [cs' ws].
    cbn [fst] in *. apply leavesAt_eq. split; [|done].
    intros ->. discriminate.
Qed.

Lemma secondWalk_leaves p : forall ox oy,
  ox == 0 -> leavesAt 0 p -> leavesAt 0 (secondWalk p ox oy).
Proof.
  induction p as [l f i x0 y0 w h cs IH] using Positioned_tree_ind.
  intros ox oy Hox Hp. rewrite secondWalk_eq.
  apply leavesAt_eq in Hp as [Hroot Hcs]. apply leavesAt_eq. split.
  - intros E. apply map_eq_nil in E. rewrite (Hroot E), Hox. reflexivity.
  - apply Forall_map. rewrite Forall_forall in IH, Hcs |- *.
    intros c Hc. apply IH; [done| |by apply Hcs]. rewrite Hox. ring.
Qed.

Lemma shift_leaves p v dx : leavesAt v p -> leavesAt (v - dx) (shift p dx).
Proof.
  unfold leavesAt. rewrite nodes_shift, Forall_map. apply Forall_impl.
  intros [l f i x0 y0 w h cs] Hk E. cbn [shift children x] in *.
  apply map_eq_nil in E. rewrite (Hk E). reflexivity.
Qed.

(** No child is moved to the right of its left sibling: in the tree
    [layoutTree] returns all leaves have the same x. *)
Lemma leaves_share_x root k1 k2 :
  In k1 (nodes (layoutTree root)) -> In k2 (nodes (layoutTree root)) ->
  children k1 = [] -> children k2 = [] -> x k1 == x k2.
Proof.
  intros H1 H2 L1 L2.
  assert (H : exists v, leavesAt v (layoutTree root)).
  { unfold layoutTree. pose proof (firstWalk_leaves (clone root)) as Hf.
    destruct (firstWalk (clone root)) as [r totalW]. cbn [fst] in Hf.
    eexists. apply shift_leaves, secondWalk_leaves; [reflexivity|exact Hf]. }
  destruct H as [v Hv]. unfold leavesAt in Hv. rewrite Forall_forall in Hv.
  rewrite (Hv k1 H1 L1), (Hv k2 H2 L2). reflexivity.
Qed.

(** C1 (what the code does instead).  For [[A b c]] the two leaf
    children come out at the same x: the first one spans 0 to 36 and the
    second one starts at 0, not at or after 36. *)
Theorem leaf_siblings_overlap :
  exists t c1 c2,
    Parse.parseTree "[A b c]" = Ok t /\
    children (layoutTree t) = [c1; c2] /\
    x c1 == 0 /\ width c1 == 36 /\ x c2 == 0 /\
    ~ (x c1 + width c1 <= x c2).
Proof.
  do 3 eexists. split; [vm_compute; reflexivity|].
  split; [vm_compute; reflexivity|].
  cbn [x width]. repeat split; try reflexivity. intros H. vm_compute in H. by apply H.
Qed.

(** C3 as stated fails: the root of [[A b c]] is 36 wide, while the
    larger of its label width and its children's widths with the gap
    is 86. *)
Lemma inner_width_is_not_span :
  exists t c1 c2,
    Parse.parseTree "[A b c]" = Ok t /\
    children (layoutTree t) = [c1; c2] /\
    ~ (width (layoutTree t) == Qmax (labelWidth (layoutTree t)) (width c1 + H_GAP + width c2)).
Proof.
  do 3 eexists. split; [vm_compute; reflexivity|].
  split; [vm_compute; reflexivity|].
  intros H. vm_compute in H. discriminate.
Qed.

Lemma box_width_is_label_width_witness :
  let t := Parse.mkNode "A" [] None
             [Parse.mkNode "b" [] None []; Parse.mkNode "c" [] None []] in
  width (layoutTree t) = labelWidth (layoutTree t) /\ height (layoutTree t) = NODE_H.
Proof.
  intros t. apply (proj1 (box_width_is_label_width t) (layoutTree t)).
  left. reflexivity.
Defined.

End LayoutFacts.

(** ** Movement *)

Section MovementFacts.

Import Layout Render Tree Movement.

Lemma walk_fold n : forall m, walk n m = fold_left visitNode (nodes n) m.
Proof.
  induction n as [l f i x0 y0 w h cs IH] using Positioned_tree_ind. intros m.
  cbn [walk nodes fold_left].
  change (match i with
          | Some k =>
              if Js.truthy i
              then JsMap.set m k
                     (if String.eqb l "t"
                      then mkRec (origin (match JsMap.get m k with Some r => r | None => mkRec None [] end))
                             (traces (match JsMap.get m k with Some r => r | None => mkRec None [] end)
                                ++ [mkPositioned l f i x0 y0 w h cs])
                      else mkRec (Some (mkPositioned l f i x0 y0 w h cs))
                             (traces (match JsMap.get m k with Some r => r | None => mkRec None [] end)))
              else m
          | None => m
          end) with (visitNode m (mkPositioned l f i x0 y0 w h cs)).
  generalize (visitNode m (mkPositioned l f i x0 y0 w h cs)) as m1.
  induction IH as [|c cs Hc _ IHcs]; intros m1; cbn [fold_left flat_map]; [reflexivity|].
  by rewrite fold_left_app, IHcs, Hc.
Qed.

(** *** The map *)

Lemma get_set_eq {V} (m : JsMap.t V) k v : JsMap.get (JsMap.set m k v) k = Some v.
Proof.
  induction m as [|[k' v'] m IH]; cbn.
  - by rewrite String.eqb_refl.
  - destruct (String.eqb k' k) eqn:E; cbn; [by rewrite String.eqb_refl|by rewrite E].
Qed.

Lemma get_set_ne {V} (m : JsMap.t V) k k' v :
  k <> k' -> JsMap.get (JsMap.set m k v) k' = JsMap.get m k'.
Proof.
  intros Hne. induction m as [|[k0 v0] m IH]; cbn.
  - by apply String.eqb_neq in Hne as ->.
  - destruct (String.eqb_spec k0 k) as [->|]; cbn.
    + by apply String.eqb_neq in Hne as ->.
    + by rewrite IH.
Qed.

Lemma in_set {V} (m : JsMap.t V) k v k' v' :
  In (k', v') (JsMap.set m k v) -> (k', v') = (k, v) \/ In (k', v') m.
Proof.
  induction m as [|[k0 v0] m IH]; cbn.
  - intros [H|[]]. by left.
  - destruct (String.eqb k0 k); cbn; intros [H|H]; auto.
    destruct (IH H); auto.
Qed.

Lemma get_in {V} (m : JsMap.t V) k v : JsMap.get m k = Some v -> In (k, v) m.
Proof.
  induction m as [|[k0 v0] m IH]; cbn; [discriminate|].
  destruct (String.eqb_spec k0 k) as [->|]; [|by auto].
  intros [= ->]. by left.
Qed.

(** *** The groups *)

Lemma get_visitNode m n k : JsMap.get (visitNode m n) k = step k (JsMap.get m k) n.
Proof.
  unfold visitNode, step, hasKey. destruct (id n) as [s|]; [|reflexivity].
  destruct (Js.truthy (Some s)); [|reflexivity]. cbn [andb].
  destruct (String.eqb_spec s k) as [->|Hne].
  - rewrite get_set_eq. reflexivity.
  - by rewrite get_set_ne.
Qed.

Lemma get_fold l : forall m k,
  JsMap.get (fold_left visitNode l m) k = fold_left (step k) l (JsMap.get m k).
Proof.
  induction l as [|n l IH]; intros m k; cbn [fold_left]; [reflexivity|].
  by rewrite IH, get_visitNode.
Qed.

Lemma last_cons {A} (a d : A) l : last (a :: l) d = last l a.
Proof.
  revert a d. induction l as [|b l IH]; intros a d; [reflexivity|].
  change (last (a :: b :: l) d) with (last (b :: l) d). by rewrite !IH.
Qed.

Lemma step_miss k r n :
  hasKey k n = false ->
  step k r n = r /\ isOrigin k n = false /\ isTrace k n = false.
Proof. intros H. unfold step, isOrigin, isTrace. by rewrite H. Qed.

Lemma step_trace k r n :
  hasKey k n = true -> String.eqb (label n) "t" = true ->
  step k r n =
    Some (mkRec (origin (match r with Some r => r | None => mkRec None [] end))
                (traces (match r with Some r => r | None => mkRec None [] end) ++ [n])) /\
  isOrigin k n = false /\ isTrace k n = true.
Proof. intros H T. unfold step, isOrigin, isTrace. by rewrite H, T. Qed.

Lemma step_origin k r n :
  hasKey k n = true -> String.eqb (label n) "t" = false ->
  step k r n =
    Some (mkRec (Some n) (traces (match r with Some r => r | None => mkRec None [] end))) /\
  isOrigin k n = true /\ isTrace k n = false.
Proof. intros H T. unfold step, isOrigin, isTrace. by rewrite H, T. Qed.

Lemma step_fold_Some k l : forall r,
  fold_left (step k) l (Some r) =
  Some (mkRec (last (map Some (filter (isOrigin k) l)) (origin r))
              (traces r ++ filter (isTrace k) l)).
Proof.
  induction l as [|n l IH]; intros r; cbn [fold_left filter map last].
  - rewrite app_nil_r. by destruct r.
  - destruct (hasKey k n) eqn:Hk.
    + destruct (String.eqb (label n) "t") eqn:T.
      * destruct (step_trace k (Some r) n Hk T) as (-> & -> & ->).
        rewrite IH. cbn [origin traces]. by rewrite <- app_assoc.
      * destruct (step_origin k (Some r) n Hk T) as (-> & -> & ->).
        rewrite IH. cbn [origin traces map]. by rewrite last_cons.
    + destruct (step_miss k (Some r) n Hk) as (-> & -> & ->). apply IH.
Qed.

Lemma step_fold_None k l :
  fold_left (step k) l None =
  if existsb (hasKey k) l
  then Some (mkRec (lastOf (filter (isOrigin k) l)) (filter (isTrace k) l))
  else None.
Proof.
  induction l as [|n l IH]; cbn [fold_left existsb filter]; [reflexivity|].
  destruct (hasKey k n) eqn:Hk; cbn [orb].
  - unfold lastOf. destruct (String.eqb (label n) "t") eqn:T.
    + destruct (step_trace k None n Hk T) as (-> & -> & ->).
      by rewrite step_fold_Some.
    + destruct (step_origin k None n Hk T) as (-> & -> & ->).
      rewrite step_fold_Some. cbn [origin traces map app]. by rewrite last_cons.
  - destruct (step_miss k None n Hk) as (-> & -> & ->). apply IH.
Qed.

(** C5.  [walk] visits the nodes once, in pre-order, updating the map at
    each.  For a key [k] the map then has an entry exactly when some node
    carries the non-empty identifier [k]; its traces are the nodes with
    identifier [k] and label [t], in pre-order; its origin is the last
    node in pre-order with identifier [k] and another label. *)
Theorem movement_groups root :
  (forall m, walk root m = fold_left visitNode (nodes root) m) /\
  (forall k,
      JsMap.get (walk root JsMap.empty) k =
      if existsb (hasKey k) (nodes root)
      then Some (mkRec (lastOf (filter (isOrigin k) (nodes root)))
                       (filter (isTrace k) (nodes root)))
      else None).
Proof.
  split; [apply walk_fold|].
  intros k. rewrite walk_fold, get_fold. apply step_fold_None.
Qed.

(** *** The arcs *)

(** C6.  [drawMovement] appends the paths of the groups one group
    after the other.  A group without an origin gives none.  A group
    with origin [o] gives one path for each of its traces, in their
    order: from the middle of the top of [o] to the middle of the bottom
    of the trace, the first control point 40 above the start, the second
    40 below the end, with the arrow marker at the end. *)
Theorem movement_paths :
  (forall root,
      drawMovement root =
      concat (map (fun kv => drawGroup (snd kv)) (walk root JsMap.empty))) /\
  (forall r, origin r = None -> drawGroup r = []) /\
  (forall r o, origin r = Some o ->
      List.length (drawGroup r) = List.length (traces r) /\
      forall i t, nth_error (traces r) i = Some t ->
        nth_error (drawGroup r) i =
        Some (mkPath (x o + width o / 2) (y o)
                     (x o + width o / 2) (y o - 40)
                     (x t + width t / 2) (y t + height t + 40)
                     (x t + width t / 2) (y t + height t)
                     "ling-tree-move" "url(#ling-tree-arrow)"))%Q.
Proof.
  split; [|split].
  - intros root. unfold drawMovement. apply flat_map_concat_map.
  - intros r H. unfold drawGroup. by rewrite H.
  - intros r o H. unfold drawGroup. rewrite H. split; [apply length_map|].
    intros i t Ht. by rewrite nth_error_map, Ht.
Qed.

Lemma movement_paths_witness :
  let o := mkPositioned "DP" [] (Some "wh") 0 50 36 22 [] in
  let t := mkPositioned "t" [] (Some "wh") 50 100 36 22 [] in
  nth_error (drawGroup (mkRec (Some o) [t])) 0 =
  Some (mkPath (0 + 36 / 2) 50 (0 + 36 / 2) (50 - 40)
               (50 + 36 / 2) (100 + 22 + 40) (50 + 36 / 2) (100 + 22)
               "ling-tree-move" "url(#ling-tree-arrow)")%Q.
Proof.
  intros o t.
  apply (proj2 (proj2 (proj2 movement_paths) (mkRec (Some o) [t]) o eq_refl) 0%nat t).
  reflexivity.
Defined.

(** *** Empty identifiers *)

Lemma keyed_visitNode m n : keyed m -> keyed (visitNode m n).
Proof.
  intros Hm. unfold visitNode.
  destruct (id n) as [s|] eqn:Ei; [|exact Hm].
  destruct (Js.truthy (Some s)) eqn:Et; [|exact Hm].
  assert (Hs : s <> EmptyString) by (by destruct s).
  assert (Hrec : forall r, JsMap.get m s = Some r ->
            (forall o, origin r = Some o -> id o = Some s) /\
            Forall (fun t => id t = Some s) (traces r)).
  { intros r Hr. apply get_in in Hr. by destruct (Hm _ _ Hr) as (_ & ? & ?). }
  intros k r Hin. apply in_set in Hin as [[= -> ->]|Hin]; [|by apply Hm].
  split; [done|].
  destruct (JsMap.get m s) as [r0|].
  - destruct (Hrec r0 eq_refl) as [Ho Ht].
    destruct (String.eqb (label n) "t"); cbn [origin traces]; split; try done.
    + apply Forall_app. split; [done|]. by constructor.
    + by intros o [= <-].
  - destruct (String.eqb (label n) "t"); cbn [origin traces]; split; try done.
    + by constructor.
    + by intros o [= <-].
Qed.

Lemma keyed_walk root : keyed (walk root JsMap.empty).
Proof.
  rewrite walk_fold. generalize (nodes root) as l.
  assert (H : keyed JsMap.empty) by (intros k r []).
  revert H. generalize (@JsMap.empty Rec) as m. intros m H l. revert m H.
  induction l as [|n l IH]; intros m H; [exact H|].
  cbn [fold_left]. apply IH. by apply keyed_visitNode.
Qed.









Lemma collectWalk_fold n : forall m, collectWalk n m = fold_left collectNode (nodes n) m.
Proof.
  induction n as [l f i x0 y0 w h cs IH] using Positioned_tree_ind. intros m.
  cbn [collectWalk nodes fold_left].
  change (match i with
          | Some k =>
              if Js.truthy i
              then JsMap.set m k
                     (match JsMap.get m k with Some a => a | None => [] end
                        ++ [mkPositioned l f i x0 y0 w h cs])
              else m
          | None => m
          end) with (collectNode m (mkPositioned l f i x0 y0 w h cs)).
  generalize (collectNode m (mkPositioned l f i x0 y0 w h cs)) as m1.
  induction IH as [|c cs Hc _ IHcs]; intros m1; cbn [fold_left flat_map]; [reflexivity|].
  by rewrite fold_left_app, IHcs, Hc.
Qed.





End MovementFacts.

(** ** The store *)

Section StoreFacts.

Import Layout Tree Store StoreSpec.

Lemma bind_Some {A B} (m : M A) (k : A -> M B) h a h' :
  m h = Some (a, h') -> bind m k h = k a h'.
Proof. intros E. unfold bind. by rewrite E. Qed.

Lemma read_Some h l o : h !! l = Some o -> read l h = Some (o, h).
Proof. intros E. unfold read. by rewrite E. Qed.

Lemma modify_Some h l o f : h !! l = Some o -> modify l f h = Some (tt, <[l := f o]> h).
Proof. intros E. unfold modify. by rewrite E. Qed.

Lemma holdsPos_eq h a par l f i x0 y0 w hh cs :
  holdsPos h a par (mkPositioned l f i x0 y0 w hh cs) =
  (h !! a = Some (mkObj l f i (addrs (S a) cs)
                        (Some x0) (Some y0) (Some w) (Some hh) (Some par)) /\
   holdsAll h (Some a) (S a) cs).
Proof. reflexivity. Qed.

Lemma holdsAll_cons h par b c cs :
  holdsAll h par b (c :: cs) =
  (holdsPos h b par c /\ holdsAll h par (b + size c) cs).
Proof. reflexivity. Qed.

Lemma size_eq l f i x0 y0 w hh cs :
  size (mkPositioned l f i x0 y0 w hh cs) = S (sizes cs).
Proof. reflexivity. Qed.

Lemma sizes_cons c cs : sizes (c :: cs) = (size c + sizes cs)%nat.
Proof. reflexivity. Qed.

Lemma size_pos p : (1 <= size p)%nat.
Proof. destruct p. rewrite size_eq. lia. Qed.

Section Agree.

Variables h h' : store.

Lemma holdsPos_agree p : forall a par,
  agreeIn h h' a (size p) -> holdsPos h a par p -> holdsPos h' a par p.
Proof.
  induction p as [l f i x0 y0 w hh cs IH] using Positioned_tree_ind.
  intros a par Hag. rewrite !holdsPos_eq, size_eq in *. intros [Ho Hcs]. split.
  - rewrite Hag.
    + exact Ho.
    + lia.
  - assert (Hag' : agreeIn h h' (S a) (sizes cs)) by (intros k Hk; apply Hag; lia).
    clear Hag Ho. revert Hag' Hcs. generalize (S a) as b.
    induction IH as [|c cs Hc _ IHcs]; intros b Hag; [done|].
    rewrite !holdsAll_cons, sizes_cons in *. intros [H1 H2]. split.
    + apply Hc; [|done]. intros k Hk. apply Hag. lia.
    + apply IHcs; [|done]. intros k Hk. apply Hag. lia.
Qed.

Lemma holdsAll_agree cs : forall par b,
  agreeIn h h' b (sizes cs) -> holdsAll h par b cs -> holdsAll h' par b cs.
Proof.
  induction cs as [|c cs IH]; intros par b Hag; [done|].
  rewrite !holdsAll_cons, sizes_cons in *. intros [H1 H2]. split.
  - eapply holdsPos_agree; [|done]. intros k Hk. apply Hag. lia.
  - apply IH; [|done]. intros k Hk. apply Hag. lia.
Qed.

End Agree.

(** *** clone *)

Lemma holdsNode_frame t : forall h h' l,
  (forall k o, h !! k = Some o -> h' !! k = Some o) ->
  holdsNode h l t -> holdsNode h' l t.
Proof.
  induction t as [lb f i cs IH] using Node_tree_ind. intros h h' l Hf H.
  inversion H as [l0 o t0 Ho Hl Hfe Hi Hcs]; subst.
  apply holds_node with o; try done; [by apply Hf|].
  cbn [Parse.children] in *. clear -IH Hf Hcs.
  induction Hcs as [|c t cl ts Hc _ IHcs]; [constructor|].
  inversion IH as [|? ? Ht IH']; subst. constructor; [by eapply Ht|by apply IHcs].
Qed.

Lemma size_clone t : size (Layout.clone t) = nodeSize t.
Proof.
  induction t as [lb f i cs IH] using Node_tree_ind.
  cbn [Layout.clone size nodeSize]. f_equal. rewrite map_map. f_equal.
  induction IH as [|c cs Hc _ IHcs]; cbn [map]; [reflexivity|]. by rewrite Hc, IHcs.
Qed.

Lemma sizes_clone cs : sizes (map Layout.clone cs) = list_sum (map nodeSize cs).
Proof.
  induction cs as [|c cs IH]; [reflexivity|].
  cbn [map]. rewrite sizes_cons, size_clone, IH. reflexivity.
Qed.

Lemma clone_children cs :
  Forall cloneSpec cs ->
  forall locs fuel h par,
    Forall2 (holdsNode h) locs cs -> list_sum (map nodeSize cs) <= fuel ->
    exists news,
      mapM (fun c => Store.clone fuel c par) locs h =
        Some (addrs (List.length h) (map Layout.clone cs), h ++ news) /\
      List.length news = list_sum (map nodeSize cs) /\
      holdsAll (h ++ news) par (List.length h) (map Layout.clone cs).
Proof.
  induction 1 as [|t ts Ht _ IH]; intros locs fuel h par Hl Hfuel.
  - inversion Hl; subst. exists []. rewrite app_nil_r. by repeat split.
  - inversion Hl as [|c ? cl ? Hc Hcl]; subst.
    change (nodeSize t + list_sum (map nodeSize ts) <= fuel) in Hfuel.
    destruct (Ht fuel h c par Hc ltac:(lia)) as (n1 & E1 & L1 & P1).
    assert (Hcl' : Forall2 (holdsNode (h ++ n1)) cl ts).
    { eapply Forall2_impl; [|exact Hcl]. intros ? ? ?.
      eapply holdsNode_frame; [|done]. intros k o. apply lookup_app_l_Some. }
    destruct (IH cl fuel (h ++ n1) par Hcl' ltac:(lia)) as (n2 & E2 & L2 & P2).
    exists (n1 ++ n2). rewrite app_assoc. split; [|split].
    + cbn [mapM]. rewrite (bind_Some _ _ _ _ _ E1), (bind_Some _ _ _ _ _ E2).
      unfold ret. do 2 f_equal. cbn [map addrs]. f_equal.
      by rewrite length_app, L1, size_clone.
    + change (List.length (n1 ++ n2) = nodeSize t + list_sum (map nodeSize ts)).
      rewrite length_app. lia.
    + cbn [map]. rewrite holdsAll_cons. split.
      * eapply holdsPos_agree; [|exact P1]. intros k Hk.
        apply lookup_app_l. rewrite length_app, L1. rewrite size_clone in Hk. lia.
      * rewrite length_app, L1 in P2. by rewrite size_clone.
Qed.

Lemma clone_spec t : cloneSpec t.
Proof.
  induction t as [lb f i cs IH] using Node_tree_ind.
  intros fuel h l par H Hfuel.
  inversion H as [l0 o t0 Ho Hl Hfe Hi Hcs]; subst. cbn [Parse.children] in Hcs.
  change (S (list_sum (map nodeSize cs)) <= fuel) in Hfuel.
  destruct fuel as [|fuel]; [lia|].
  set (po := mkObj (label o) (features o) (id o) []
                   (Some 0%Q) (Some 0%Q)
                   (Some (measureText (label o) (features o)))
                   (Some NODE_H) (Some par)).
  assert (Hcs' : Forall2 (holdsNode (h ++ [po])) (children o) cs).
  { eapply Forall2_impl; [|exact Hcs]. intros ? ? ?.
    eapply holdsNode_frame; [|done]. intros k o'. apply lookup_app_l_Some. }
  destruct (clone_children cs IH (children o) fuel (h ++ [po]) (Some (List.length h))
              Hcs' ltac:(lia)) as (news & E & L & P).
  rewrite length_app in E, P. cbn [List.length] in E, P.
  rewrite Nat.add_1_r in E, P.
  set (locs := addrs (S (List.length h)) (map Layout.clone cs)) in *.
  exists (setChildren locs po :: news). split; [|split].
  - cbn [Store.clone]. rewrite (bind_Some _ _ _ _ _ (read_Some _ _ _ Ho)).
    unfold bind at 1, alloc at 1. fold po.
    rewrite (bind_Some _ _ _ _ _ E).
    assert (Hp : ((h ++ [po]) ++ news) !! List.length h = Some po).
    { rewrite <- app_assoc. cbn [app]. by apply list_lookup_middle. }
    rewrite (bind_Some _ _ _ _ _ (modify_Some _ _ _ _ Hp)). unfold ret. do 2 f_equal.
    rewrite <- app_assoc. cbn [app].
    rewrite insert_app_r_alt by lia. by rewrite Nat.sub_diag.
  - change (S (List.length news) = S (list_sum (map nodeSize cs))). by rewrite L.
  - cbn [Layout.clone]. rewrite holdsPos_eq. split.
    + rewrite list_lookup_middle by done. cbn [measureLabel Parse.label Parse.features] in *.
      unfold setChildren, po. cbn. unfold measureLabel. cbn. by rewrite Hl, Hfe, Hi.
    + eapply holdsAll_agree; [|exact P]. intros k Hk.
      rewrite <- app_assoc. cbn [app].
      rewrite !lookup_app_r by lia.
      destruct (k - List.length h)%nat as [|j] eqn:Ej; [lia|]. reflexivity.
Qed.

(** *** The passes keep the places *)

Lemma size_unplaced p : size (unplaced p) = size p.
Proof.
  induction p as [l f i x0 y0 w hh cs IH] using Positioned_tree_ind.
  cbn [unplaced]. rewrite !size_eq. f_equal. unfold sizes. rewrite map_map. f_equal.
  induction IH as [|c cs Hc _ IHcs]; cbn [map]; [reflexivity|]. by rewrite Hc, IHcs.
Qed.

Lemma size_same p q : unplaced p = unplaced q -> size p = size q.
Proof. intros E. by rewrite <- (size_unplaced p), E, size_unplaced. Qed.

Lemma sizes_same cs cs' : map unplaced cs = map unplaced cs' -> map size cs = map size cs'.
Proof.
  revert cs'. induction cs as [|c cs IH]; intros [|c' cs'] E; try discriminate; [reflexivity|].
  injection E as E1 E2. cbn [map]. by rewrite (size_same _ _ E1), (IH _ E2).
Qed.

Lemma addrs_same cs cs' b : map size cs = map size cs' -> addrs b cs = addrs b cs'.
Proof.
  revert cs' b. induction cs as [|c cs IH]; intros [|c' cs'] b E; try discriminate; [reflexivity|].
  injection E as E1 E2. cbn [addrs]. by rewrite E1, (IH _ _ E2).
Qed.

Lemma length_addrs cs b : List.length (addrs b cs) = List.length cs.
Proof. revert b. induction cs as [|c cs IH]; intros b; cbn; [reflexivity|]. by rewrite IH. Qed.

Lemma outside_refl h a n : outside h h a n.
Proof. by intros k _. Qed.

(** *** firstWalk *)

Lemma firstWalk_children cs :
  Forall firstWalkSpec cs ->
  forall fuel len h par b i ws,
    holdsAll h par b cs -> sizes cs <= fuel ->
    exists h',
      Store.firstWalkEach (Store.firstWalk fuel) len (addrs b cs) i ws h =
        Some (snd (Layout.firstWalkEach Layout.firstWalk len cs i ws), h') /\
      List.length h' = List.length h /\
      outside h h' b (sizes cs) /\
      holdsAll h' par b (fst (Layout.firstWalkEach Layout.firstWalk len cs i ws)).
Proof.
  induction 1 as [|c cs Hc _ IH]; intros fuel len h par b i ws Hh Hfuel.
  - exists h. repeat split; try done.
  - rewrite holdsAll_cons in Hh. destruct Hh as [H1 H2]. rewrite sizes_cons in *.
    destruct (Hc fuel h b par H1 ltac:(lia)) as (h1 & E1 & L1 & O1 & P1).
    pose proof (size_same _ _ (unplaced_firstWalk c)) as Sc.
    cbn [Store.firstWalkEach Layout.firstWalkEach addrs].
    rewrite (bind_Some _ _ _ _ _ E1).
    destruct (Layout.firstWalk c) as [c' w]. cbn [fst snd] in *.
    set (ws1 := if (i <? len - 1)%nat then (ws + w + H_GAP)%Q else (ws + w)%Q).
    assert (H2' : holdsAll h1 par (b + size c) cs).
    { eapply holdsAll_agree; [|exact H2]. intros k Hk. apply O1. lia. }
    destruct (IH fuel len h1 par (b + size c)%nat (S i) ws1 H2' ltac:(lia))
      as (h2 & E2 & L2 & O2 & P2).
    rewrite E2.
    destruct (Layout.firstWalkEach Layout.firstWalk len cs (S i) ws1) as [rest' ws2].
    cbn [fst snd] in *. exists h2. split; [done|]. split; [lia|]. split.
    + intros k Hk. rewrite O2 by lia. apply O1. lia.
    + rewrite holdsAll_cons, Sc. split; [|done].
      eapply holdsPos_agree; [|exact P1]. intros k Hk. apply O2. lia.
Qed.

Lemma firstWalk_inner fuel a h o k ks :
  h !! a = Some o -> children o = k :: ks ->
  Store.firstWalk (S fuel) a h =
  (widthSum <~ firstWalkEach (Store.firstWalk fuel) (List.length (children o))
                             (children o) 0 0 ;;
   o <~ read a ;;
   w <~ num (width o) ;;
   _ <~ modify a (setX (widthSum / 2 - w / 2)) ;;
   ret (Qmax w widthSum))%Q h.
Proof.
  intros Ho Hk. cbn [Store.firstWalk]. rewrite (bind_Some _ _ _ _ _ (read_Some _ _ _ Ho)).
  destruct (children o); [discriminate|reflexivity].
Qed.

Lemma firstWalk_spec p : firstWalkSpec p.
Proof.
  induction p as [l f i x0 y0 w hh cs IH] using Positioned_tree_ind.
  intros fuel h a par Hh Hfuel. rewrite size_eq in *.
  destruct fuel as [|fuel]; [lia|].
  rewrite holdsPos_eq in Hh. destruct Hh as [Ho Hcs].
  destruct cs as [|c cs].
  - cbn [Store.firstWalk]. rewrite (bind_Some _ _ _ _ _ (read_Some _ _ _ Ho)).
    cbn [children addrs Layout.firstWalk fst snd].
    rewrite (bind_Some _ _ _ _ _ (modify_Some _ _ _ _ Ho)).
    assert (a < List.length h) by (by eapply lookup_lt_Some).
    erewrite bind_Some by (apply read_Some, list_lookup_insert_eq; lia).
    cbn [width setX num]. unfold ret. eexists. split; [reflexivity|].
    split; [apply length_insert|]. split.
    + intros k Hk. apply list_lookup_insert_ne. lia.
    + rewrite holdsPos_eq. split; [|done]. by apply list_lookup_insert_eq.
  - set (kids := c :: cs) in *.
    destruct (firstWalk_children kids IH fuel (List.length (addrs (S a) kids))
                h (Some a) (S a) 0%nat 0%Q Hcs ltac:(lia)) as (h1 & E1 & L1 & O1 & P1).
    rewrite (firstWalk_inner fuel a h _ (S a) (addrs (S a + size c) cs) Ho eq_refl).
    cbn [children].
    rewrite (bind_Some _ _ _ _ _ E1).
    assert (Ho1 : h1 !! a = h !! a) by (apply O1; lia). rewrite Ho in Ho1.
    rewrite (bind_Some _ _ _ _ _ (read_Some _ _ _ Ho1)). cbn [width num].
    unfold bind at 1, ret at 1.
    rewrite (bind_Some _ _ _ _ _ (modify_Some _ _ _ _ Ho1)). unfold ret.
    rewrite length_addrs in *.
    change (Layout.firstWalk (mkPositioned l f i x0 y0 w hh kids)) with
      (let '(cs', widthSum) :=
         Layout.firstWalkEach Layout.firstWalk (List.length kids) kids 0 0 in
       (mkPositioned l f i (widthSum / 2 - w / 2) y0 w hh cs', Qmax w widthSum)).
    assert (Hall : Forall (fun c => unplaced (fst (Layout.firstWalk c)) = unplaced c) kids)
      by (apply Forall_forall; intros q _; apply unplaced_firstWalk).
    pose proof (unplaced_firstWalkEach (List.length kids) kids Hall 0%nat 0%Q) as Su.
    destruct (Layout.firstWalkEach Layout.firstWalk (List.length kids) kids 0 0)
      as [cs' widthSum].
    cbn [fst snd] in *.
    assert (Hs : map size cs' = map size kids) by (by apply sizes_same).
    assert (a < List.length h1) by (by eapply lookup_lt_Some).
    eexists. split; [reflexivity|]. split; [by rewrite length_insert|]. split.
    + intros k Hk. rewrite list_lookup_insert_ne by lia. apply O1. lia.
    + rewrite holdsPos_eq. split.
      * rewrite list_lookup_insert_eq by lia. unfold setX. cbn.
        by rewrite (addrs_same _ _ _ Hs).
      * eapply holdsAll_agree; [|exact P1]. intros k Hk.
        apply list_lookup_insert_ne. lia.
Qed.

(** *** Loops over the children *)

Lemma size_le_sizes c cs : In c cs -> size c <= sizes cs.
Proof.
  induction cs as [|d cs IH]; intros []; rewrite sizes_cons; subst; [lia|].
  specialize (IH H). lia.
Qed.

(** A [forEach] over the children of the object at [n], whose callback
    [f] does to the subtree of each child what [g] does to the tree. *)
Lemma forEach_children (f : nat -> M unit) (g : Positioned -> Positioned) n on cs :
  (forall c, size (g c) = size c) ->
  Forall (fun c => forall h a par,
            h !! n = Some on -> n < a -> holdsPos h a par c ->
            exists h', f a h = Some (tt, h') /\
                       List.length h' = List.length h /\
                       outside h h' a (size c) /\
                       holdsPos h' a par (g c)) cs ->
  forall h par b,
    h !! n = Some on -> n < b -> holdsAll h par b cs ->
    exists h', forEach f (addrs b cs) h = Some (tt, h') /\
               List.length h' = List.length h /\
               outside h h' b (sizes cs) /\
               holdsAll h' par b (map g cs).
Proof.
  intros Hg. induction 1 as [|c cs Hc _ IH]; intros h par b Hn Hb Hh.
  - exists h. by repeat split.
  - rewrite holdsAll_cons in Hh. destruct Hh as [H1 H2].
    destruct (Hc h b par Hn Hb H1) as (h1 & E1 & L1 & O1 & P1).
    assert (H2' : holdsAll h1 par (b + size c) cs).
    { eapply holdsAll_agree; [|exact H2]. intros k Hk. apply O1. lia. }
    assert (Hn1 : h1 !! n = Some on) by (rewrite O1; [done|lia]).
    destruct (IH h1 par (b + size c) Hn1 ltac:(lia) H2') as (h2 & E2 & L2 & O2 & P2).
    exists h2. cbn [addrs forEach map]. rewrite (bind_Some _ _ _ _ _ E1).
    split; [done|]. split; [lia|]. rewrite sizes_cons. split.
    + intros k Hk. rewrite O2 by lia. apply O1. lia.
    + rewrite holdsAll_cons, Hg. split; [|done].
      eapply holdsPos_agree; [|exact P1]. rewrite Hg. intros k Hk. apply O2. lia.
Qed.

Lemma addrs_map g cs b :
  (forall c, size (g c) = size c) -> addrs b (map g cs) = addrs b cs.
Proof.
  intros Hg. apply addrs_same. rewrite map_map. apply map_ext. intros c. apply Hg.
Qed.

(** *** secondWalk *)

Lemma size_secondWalk p ox oy : size (Layout.secondWalk p ox oy) = size p.
Proof. apply size_same, unplaced_secondWalk. Qed.

Lemma secondWalk_spec p : secondWalkSpec p.
Proof.
  induction p as [l f i x0 y0 w hh cs IH] using Positioned_tree_ind.
  intros fuel h a par ox oy Hh Hfuel. rewrite size_eq in *.
  destruct fuel as [|fuel]; [lia|].
  rewrite holdsPos_eq in Hh. destruct Hh as [Ho Hcs].
  assert (Ha : a < List.length h) by (by eapply lookup_lt_Some).
  set (o2 := mkObj l f i (addrs (S a) cs)
                   (Some (x0 + ox)%Q) (Some oy) (Some w) (Some hh) (Some par)).
  set (h1 := <[a := setX (x0 + ox) (mkObj l f i (addrs (S a) cs) (Some x0) (Some y0)
                                         (Some w) (Some hh) (Some par))]> h).
  set (h2 := <[a := o2]> h1).
  assert (Ho1 : h1 !! a = Some (setX (x0 + ox) (mkObj l f i (addrs (S a) cs) (Some x0)
                                   (Some y0) (Some w) (Some hh) (Some par))))
    by (by apply list_lookup_insert_eq).
  assert (Ho2 : h2 !! a = Some o2)
    by (apply list_lookup_insert_eq; unfold h1; by rewrite length_insert).
  assert (Hcs2 : holdsAll h2 (Some a) (S a) cs).
  { eapply holdsAll_agree; [|exact Hcs]. intros k Hk. unfold h2, h1.
    rewrite !list_lookup_insert_ne by lia. reflexivity. }
  set (g := fun c => Layout.secondWalk c (ox + Layout.x c - Layout.x c + 0)%Q
                                        (oy + hh + V_GAP)%Q).
  set (body := fun c : nat =>
                 oc <~ read c ;; cx <~ num (x oc) ;;
                 on <~ read a ;; nh <~ num (height on) ;;
                 Store.secondWalk fuel c (ox + cx - cx + 0)%Q (oy + nh + V_GAP)%Q).
  assert (Hbody : Forall (fun c => forall h a0 par,
            h !! a = Some o2 -> a < a0 -> holdsPos h a0 par c ->
            exists h', body a0 h = Some (tt, h') /\
                       List.length h' = List.length h /\
                       outside h h' a0 (size c) /\
                       holdsPos h' a0 par (g c)) cs).
  { apply Forall_forall. intros c Hc h0 a0 par0 Hn Hlt Hp.
    rewrite Forall_forall in IH. pose proof (size_le_sizes _ _ Hc) as Hsz.
    destruct (IH c Hc fuel h0 a0 par0 (ox + Layout.x c - Layout.x c + 0)%Q
                (oy + hh + V_GAP)%Q Hp ltac:(lia)) as (h' & E & R).
    exists h'. split; [|exact R]. unfold body.
    destruct c as [cl cf ci cx cy cw ch ccs]. rewrite holdsPos_eq in Hp.
    destruct Hp as [Hoc _].
    rewrite (bind_Some _ _ _ _ _ (read_Some _ _ _ Hoc)). cbn [x num].
    unfold bind at 1, ret at 1.
    rewrite (bind_Some _ _ _ _ _ (read_Some _ _ _ Hn)). unfold o2 at 1. cbn [height num].
    unfold bind at 1, ret at 1. exact E. }
  destruct (forEach_children body g a o2 cs (fun c => size_secondWalk c _ _) Hbody
              h2 (Some a) (S a) Ho2 ltac:(lia) Hcs2) as (h3 & E3 & L3 & O3 & P3).
  exists h3. split; [|split; [|split]].
  - cbn [Store.secondWalk]. rewrite (bind_Some _ _ _ _ _ (read_Some _ _ _ Ho)).
    cbn [x num]. unfold bind at 1, ret at 1.
    rewrite (bind_Some _ _ _ _ _ (modify_Some _ _ _ _ Ho)). fold h1.
    rewrite (bind_Some _ _ _ _ _ (modify_Some _ _ _ _ Ho1)).
    change (<[a := setY oy _]> h1) with h2.
    rewrite (bind_Some _ _ _ _ _ (read_Some _ _ _ Ho2)). exact E3.
  - rewrite L3. unfold h2, h1. by rewrite !length_insert.
  - intros k Hk. rewrite O3 by lia. unfold h2, h1.
    rewrite !list_lookup_insert_ne by lia. reflexivity.
  - rewrite secondWalk_eq, holdsPos_eq. split.
    + rewrite O3 by lia. rewrite Ho2. unfold o2. do 2 f_equal.
      symmetry. apply addrs_map. intros c. apply size_secondWalk.
    + exact P3.
Qed.

(** *** visit and shift *)

Lemma visit_children cs :
  Forall visitSpec cs ->
  forall fuel h par b m,
    holdsAll h par b cs -> sizes cs <= fuel ->
    visitEach (Store.visit fuel) (addrs b cs) m h =
    Some (fold_left (fun m c => Layout.visit c (Fin m)) cs m, h).
Proof.
  induction 1 as [|c cs Hc _ IH]; intros fuel h par b m Hh Hfuel; [reflexivity|].
  rewrite holdsAll_cons in Hh. destruct Hh as [H1 H2]. rewrite sizes_cons in Hfuel.
  cbn [addrs visitEach fold_left].
  rewrite (bind_Some _ _ _ _ _ (Hc fuel h b par (Fin m) H1 ltac:(lia))).
  apply IH with par; [done|lia].
Qed.

Lemma visit_spec p : visitSpec p.
Proof.
  induction p as [l f i x0 y0 w hh cs IH] using Positioned_tree_ind.
  intros fuel h a par minX Hh Hfuel. rewrite size_eq in *.
  destruct fuel as [|fuel]; [lia|].
  rewrite holdsPos_eq in Hh. destruct Hh as [Ho Hcs].
  cbn [Store.visit Layout.visit]. rewrite (bind_Some _ _ _ _ _ (read_Some _ _ _ Ho)).
  cbn [x num children]. unfold bind at 1, ret at 1.
  apply visit_children with (Some a); [done|done|lia].
Qed.

Lemma size_shift p dx : size (Layout.shift p dx) = size p.
Proof. apply size_same, unplaced_shift. Qed.

Lemma shift_spec p : shiftSpec p.
Proof.
  induction p as [l f i x0 y0 w hh cs IH] using Positioned_tree_ind.
  intros fuel h a par dx Hh Hfuel. rewrite size_eq in *.
  destruct fuel as [|fuel]; [lia|].
  rewrite holdsPos_eq in Hh. destruct Hh as [Ho Hcs].
  assert (Ha : a < List.length h) by (by eapply lookup_lt_Some).
  set (o1 := mkObj l f i (addrs (S a) cs)
                   (Some (x0 - dx)%Q) (Some y0) (Some w) (Some hh) (Some par)).
  set (h1 := <[a := o1]> h).
  assert (Ho1 : h1 !! a = Some o1) by (by apply list_lookup_insert_eq).
  assert (Hcs1 : holdsAll h1 (Some a) (S a) cs).
  { eapply holdsAll_agree; [|exact Hcs]. intros k Hk. unfold h1.
    rewrite list_lookup_insert_ne by lia. reflexivity. }
  assert (Hbody : Forall (fun c => forall h a0 par,
            h !! a = Some o1 -> a < a0 -> holdsPos h a0 par c ->
            exists h', Store.shift fuel a0 dx h = Some (tt, h') /\
                       List.length h' = List.length h /\
                       outside h h' a0 (size c) /\
                       holdsPos h' a0 par (Layout.shift c dx)) cs).
  { apply Forall_forall. intros c Hc h0 a0 par0 _ _ Hp.
    rewrite Forall_forall in IH. pose proof (size_le_sizes _ _ Hc) as Hsz.
    apply (IH c Hc); [done|lia]. }
  destruct (forEach_children (fun c => Store.shift fuel c dx)
              (fun c => Layout.shift c dx) a o1 cs (fun c => size_shift c dx) Hbody
              h1 (Some a) (S a) Ho1 ltac:(lia) Hcs1) as (h2 & E2 & L2 & O2 & P2).
  exists h2. split; [|split; [|split]].
  - cbn [Store.shift]. rewrite (bind_Some _ _ _ _ _ (read_Some _ _ _ Ho)).
    cbn [x num]. unfold bind at 1, ret at 1.
    rewrite (bind_Some _ _ _ _ _ (modify_Some _ _ _ _ Ho)).
    change (<[a := setX (x0 - dx) _]> h) with h1.
    rewrite (bind_Some _ _ _ _ _ (read_Some _ _ _ Ho1)). exact E2.
  - rewrite L2. unfold h1. by rewrite length_insert.
  - intros k Hk. rewrite O2 by lia. unfold h1.
    rewrite list_lookup_insert_ne by lia. reflexivity.
  - cbn [Layout.shift]. rewrite holdsPos_eq. split.
    + rewrite O2 by lia. rewrite Ho1. unfold o1. do 2 f_equal.
      symmetry. apply addrs_map. intros c. apply size_shift.
    + exact P2.
Qed.

(** *** layoutTree *)

(** C9.  Run on a store that holds the tree [t] at [root], with fuel for
    the nodes of [t], [layoutTree] returns the first free place; every
    object the store held before is still there unchanged, so the store
    still holds [t] at [root]; the new places, one for each node of [t],
    hold the tree that [layoutTree] computes on values. *)
Theorem layoutTree_leaves_input_alone h root t fuel :
  holdsNode h root t -> nodeSize t <= fuel ->
  exists h',
    Store.layoutTree fuel root h = Some (List.length h, h') /\
    List.length h' = List.length h + nodeSize t /\
    (forall k o, h !! k = Some o -> h' !! k = Some o) /\
    holdsNode h' root t /\
    holdsPos h' (List.length h) None (Layout.layoutTree t).
Proof.
  intros Hh Hfuel.
  destruct (clone_spec t fuel h root None Hh Hfuel) as (news & E0 & L0 & P0).
  set (a := List.length h) in *. set (h0 := h ++ news) in *.
  pose proof (size_clone t) as S0.
  destruct (firstWalk_spec _ fuel h0 a None P0 ltac:(lia)) as (h1 & E1 & L1 & O1 & P1).
  pose proof (size_same _ _ (unplaced_firstWalk (Layout.clone t))) as S1.
  unfold Layout.layoutTree.
  destruct (Layout.firstWalk (Layout.clone t)) as [r totalW]. cbn [fst snd] in *.
  destruct (secondWalk_spec _ fuel h1 a None 0%Q 0%Q P1 ltac:(lia))
    as (h2 & E2 & L2 & O2 & P2).
  pose proof (size_secondWalk r 0%Q 0%Q) as S2.
  pose proof (visit_spec _ fuel h2 a None Infinity P2 ltac:(lia)) as E3.
  destruct (shift_spec _ fuel h2 a None (Layout.visit (Layout.secondWalk r 0 0) Infinity)
              P2 ltac:(lia)) as (h3 & E4 & L4 & O4 & P4).
  assert (Hframe : forall k o, h !! k = Some o -> h3 !! k = Some o).
  { intros k o Hk. assert (k < a) by (by eapply lookup_lt_Some).
    rewrite O4, O2, O1 by lia. by apply lookup_app_l_Some. }
  exists h3. split; [|split; [|split; [|split]]].
  - unfold Store.layoutTree.
    rewrite (bind_Some _ _ _ _ _ E0), (bind_Some _ _ _ _ _ E1),
            (bind_Some _ _ _ _ _ E2), (bind_Some _ _ _ _ _ E3),
            (bind_Some _ _ _ _ _ E4). reflexivity.
  - rewrite L4, L2, L1. unfold h0. rewrite length_app. lia.
  - exact Hframe.
  - by eapply holdsNode_frame.
  - exact P4.
Qed.

Lemma layoutTree_leaves_input_alone_witness :
  let h := [mkObj "b" [] None [] None None None None None;
            mkObj "A" [] None [0; 2] None None None None None;
            mkObj "c" [] None [] None None None None None] in
  let t := Parse.mkNode "A" [] None
             [Parse.mkNode "b" [] None []; Parse.mkNode "c" [] None []] in
  exists h',
    Store.layoutTree 3 1 h = Some (3, h') /\
    List.length h' = 3 + 3 /\
    (forall k o, h !! k = Some o -> h' !! k = Some o) /\
    holdsNode h' 1 t /\
    holdsPos h' 3 None (Layout.layoutTree t).
Proof.
  intros h t. apply (layoutTree_leaves_input_alone h 1 t 3).
  - eapply holds_node; [reflexivity..|].
    repeat constructor; eapply holds_node; try reflexivity; constructor.
  - cbn. lia.
Defined.

End StoreFacts.

(** * Further properties *)

(** ** The tokenizer *)

Section TokenizerMore.

Import Parse Tokens.

Lemma tokenizeLoop_throws fuel : forall s out e,
  tokenizeLoop fuel s out = Throw e -> e = UnclosedQuote.
Proof.
  induction fuel as [|fuel IH]; intros s out e H; [discriminate|].
  destruct s as [|c s]; cbn [tokenizeLoop] in H; [discriminate|].
  repeat case_match; try (by eapply IH); by injection H.
Qed.

Lemma scanSymbol_no_quote s :
  Js.indexOf Js.dquote s = None -> Js.indexOf Js.dquote (snd (scanSymbol s)) = None.
Proof.
  induction s as [|c s IH]; [done|]. cbn [Js.indexOf scanSymbol].
  destruct (Ascii.eqb c Js.dquote) eqn:Ec; [discriminate|].
  destruct (Js.indexOf Js.dquote s) eqn:Ei; [discriminate|]. intros _.
  destruct (Js.isSpaceOrBracket c).
  - cbn [snd Js.indexOf]. by rewrite Ec, Ei.
  - specialize (IH eq_refl). by destruct (scanSymbol s).
Qed.

Lemma tokenizeLoop_no_quote fuel : forall s out,
  Js.indexOf Js.dquote s = None -> String.length s < fuel ->
  exists toks, tokenizeLoop fuel s out = Ok toks.
Proof.
  induction fuel as [|fuel IH]; intros s out Hq Hlt; [lia|].
  destruct s as [|c s]; cbn [tokenizeLoop]; [by eexists|].
  pose proof (scanSymbol_no_quote _ Hq) as Hrest.
  cbn [Js.indexOf] in Hq. cbn [String.length] in Hlt.
  destruct (Ascii.eqb c Js.dquote) eqn:Ec; [discriminate|].
  destruct (Js.indexOf Js.dquote s) eqn:Ei; [discriminate|].
  destruct (Js.isSpace c) eqn:Esp; [apply IH; [done|lia]|].
  destruct (Ascii.eqb c "[") eqn:El; [apply IH; [done|lia]|].
  destruct (Ascii.eqb c "]") eqn:Er; [apply IH; [done|lia]|].
  cbn [scanSymbol] in *. unfold Js.isSpaceOrBracket in *. rewrite Esp, El, Er in *.
  cbn [orb] in *. pose proof (scanSymbol_length s) as Hl.
  destruct (scanSymbol s) as [buf rest]. cbn [snd] in *. apply IH; [done|lia].
Qed.

(** X1.  The only error of [tokenize] is the unclosed quote, and a text
    without a double quote is always tokenized. *)
Theorem tokenize_fails_only_on_quote src :
  (forall e, tokenize src = Throw e -> e = UnclosedQuote) /\
  (Js.indexOf Js.dquote src = None -> exists toks, tokenize src = Ok toks).
Proof.
  split.
  - intros e. apply tokenizeLoop_throws.
  - intros H. apply tokenizeLoop_no_quote; [done|lia].
Qed.

Lemma tokenize_fails_only_on_quote_witness :
  exists toks, tokenize "[DP the dog]" = Ok toks.
Proof.
  apply (proj2 (tokenize_fails_only_on_quote "[DP the dog]")). reflexivity.
Defined.

Lemma tokenizeLoop_wellFormed fuel : forall s out toks,
  Forall wellFormedTok out ->
  tokenizeLoop fuel s out = Ok toks -> Forall wellFormedTok toks.
Proof.
  induction fuel as [|fuel IH]; intros s out toks Hout H; [discriminate|].
  destruct s as [|c s]; cbn [tokenizeLoop] in H; [by injection H as <-|].
  destruct (Js.isSpace c) eqn:Esp; [by eapply IH|].
  destruct (Ascii.eqb c "[") eqn:El.
  { eapply IH; [|exact H]. apply Forall_app. split; [done|]. by repeat constructor. }
  destruct (Ascii.eqb c "]") eqn:Er.
  { eapply IH; [|exact H]. apply Forall_app. split; [done|]. by repeat constructor. }
  destruct (Ascii.eqb c Js.dquote) eqn:Eq.
  - destruct (scanQuoted s) as [buf rest] eqn:Es.
    destruct rest as [|d rest]; [discriminate|].
    eapply IH; [|exact H]. apply Forall_app. split; [done|].
    constructor; [|constructor]. unfold wellFormedTok. cbn [kind value].
    intros s' ->. destruct s as [|c0 s]; cbn [scanQuoted] in Es; [discriminate|].
    destruct (Ascii.eqb c0 Js.dquote) eqn:E0; [discriminate|].
    destruct (scanQuoted s). simplify_eq.
  - cbn [scanSymbol] in H. unfold Js.isSpaceOrBracket in H. rewrite Esp, El, Er in H.
    cbn [orb] in H. destruct (scanSymbol s) as [buf rest].
    eapply IH; [|exact H]. apply Forall_app. split; [done|].
    constructor; [|constructor]. unfold wellFormedTok. cbn [kind value].
    intros s' [= -> _]. by rewrite Ascii.eqb_refl in Eq.
Qed.

(** X2.  The tokens [tokenize] returns: none is of kind [quote], an open
    bracket token carries the open bracket and a close bracket token the
    close bracket, and no symbol begins with a double quote. *)
Theorem tokenize_tokens_wellFormed src toks :
  tokenize src = Ok toks -> Forall wellFormedTok toks.
Proof. apply tokenizeLoop_wellFormed. constructor. Qed.

Lemma tokenize_tokens_wellFormed_witness :
  Forall wellFormedTok [mkTok lbr "["; mkTok sym "A"; mkTok rbr "]"].
Proof. apply (tokenize_tokens_wellFormed "[A]"). reflexivity. Defined.

Lemma tokenizeLoop_allSpace fuel : forall s out,
  allSpace s = true -> String.length s < fuel -> tokenizeLoop fuel s out = Ok out.
Proof.
  induction fuel as [|fuel IH]; intros s out Hs Hlt; [lia|].
  destruct s as [|c s]; [reflexivity|]. cbn [allSpace String.length tokenizeLoop] in *.
  apply andb_prop in Hs as [-> Hs]. apply IH; [done|lia].
Qed.

(** X3.  A text of white space only, the empty text included, has no
    token, and [parseTree] throws the unexpected-end error on it. *)
Theorem parseTree_blank src :
  allSpace src = true ->
  tokenize src = Ok [] /\ parseTree src = Throw UnexpectedEnd.
Proof.
  intros H. assert (E : tokenize src = Ok []) by (apply tokenizeLoop_allSpace; [done|lia]).
  split; [exact E|]. unfold parseTree. by rewrite E.
Qed.

Lemma parseTree_blank_witness :
  tokenize "   " = Ok [] /\ parseTree "   " = Throw UnexpectedEnd.
Proof. apply parseTree_blank. reflexivity. Defined.

(** X4.  [parseTree] ends on every text: it returns a tree or throws. *)
Theorem parseTree_terminates src :
  (exists root, parseTree src = Ok root) \/ (exists e, parseTree src = Throw e).
Proof.
  pose proof (parseTree_settled src) as H.
  destruct (parseTree src) as [root|e|]; [left|right|done]; by eexists.
Qed.

End TokenizerMore.

(** ** The parser *)

Section ParserMore.

Import Parse Grammar Tokens.

Lemma weight_eq l f i cs :
  weight (mkNode l f i cs) = S (List.length f + list_sum (map weight cs)).
Proof.
  unfold weight. cbn [Store.nodeSize featureCount].
  assert (E : list_sum (map weight cs) =
              list_sum (map Store.nodeSize cs) + list_sum (map featureCount cs)).
  { induction cs as [|c cs IH]; [reflexivity|].
    change (weight c + list_sum (map weight cs) =
            (Store.nodeSize c + list_sum (map Store.nodeSize cs)) +
            (featureCount c + list_sum (map featureCount cs))).
    rewrite IH. unfold weight. lia. }
  fold weight in E. unfold weight in E |- *. lia.
Qed.

Lemma weights_snoc cs c :
  list_sum (map weight (cs ++ [c])) = list_sum (map weight cs) + weight c.
Proof. rewrite map_app, list_sum_app. cbn. lia. Qed.

Variable toks : list Tok.

Local Abbreviation seen := (Tokens.seen toks).
Local Abbreviation balanced := (Tokens.balanced toks).

Lemma seen_S k p t :
  nth_error toks p = Some t ->
  seen k (S p) = seen k p + (if kind_eqb (kind t) k then 1 else 0).
Proof.
  unfold Tokens.seen, countKind. revert p. induction toks as [|t0 l IH]; intros p E.
  - by destruct p.
  - destruct p as [|p]; cbn [nth_error] in E.
    + injection E as ->. cbn. destruct (kind_eqb (kind t) k); reflexivity.
    + specialize (IH p E). cbn [firstn filter] in *.
      destruct (kind_eqb (kind t0) k); cbn [List.length]; rewrite IH; reflexivity.
Qed.

Lemma seen_all k : seen k (List.length toks) = countKind k toks.
Proof. unfold Tokens.seen. by rewrite firstn_all. Qed.

Lemma seen_0 k : seen k 0 = 0.
Proof. reflexivity. Qed.

Ltac count_tok E K :=
  let Hs := fresh "Hs" in let Hl := fresh "Hl" in let Hr := fresh "Hr" in
  pose proof (seen_S sym _ _ E) as Hs;
  pose proof (seen_S lbr _ _ E) as Hl;
  pose proof (seen_S rbr _ _ E) as Hr;
  try rewrite K in Hs, Hl, Hr; cbn [kind_eqb] in Hs, Hl, Hr.

Lemma kind_eqb_eq a b : kind_eqb a b = true -> a = b.
Proof. by destruct a, b. Qed.

Lemma consumed fuel :
  (forall p n q, parseNode toks fuel p = Ok (n, q) ->
     balanced p q /\ seen sym q = seen sym p + weight n) /\
  (forall fs cs p fs' cs' q, parseBody toks fuel fs cs p = Ok ((fs', cs'), q) ->
     balanced p q /\
     seen sym q + List.length fs + list_sum (map weight cs) =
     seen sym p + List.length fs' + list_sum (map weight cs')).
Proof.
  unfold Tokens.balanced.
  induction fuel as [|fuel [IHn IHb]]; split; intros; try discriminate.
  - destruct (look toks p) as [E|t E K|t E K|t f E K _ _|t E K _].
    + rewrite parseNode_end in H by done. discriminate.
    + rewrite (parseNode_sym _ _ _ _ E K) in H. injection H as <- <-.
      count_tok E K. unfold symNode. rewrite weight_eq. cbn. lia.
    + rewrite (parseNode_bad _ _ _ _ E K) in H. discriminate.
    + rewrite (parseNode_open _ _ _ _ E K) in H.
      destruct (nth_error toks (S p)) as [lt|] eqn:E1; [|discriminate].
      destruct (kind_eqb (kind lt) sym) eqn:K1; [|discriminate].
      destruct (parseBody toks fuel [] [] (S (S p))) as [[[fs' cs'] q']| |] eqn:Eb;
        try discriminate.
      destruct (nth_error toks q') as [r|] eqn:E2; [|discriminate].
      destruct (kind_eqb (kind r) rbr) eqn:K2; [|discriminate].
      injection H as <- <-. apply IHb in Eb as [Hb Hw].
      apply kind_eqb_eq in K1, K2.
      count_tok E K. count_tok E1 K1. count_tok E2 K2.
      rewrite weight_eq. cbn [List.length map list_sum fold_right] in Hw. lia.
    + rewrite (parseNode_open _ _ _ _ E K) in H.
      destruct (nth_error toks (S p)) as [lt|] eqn:E1; [|discriminate].
      destruct (kind_eqb (kind lt) sym) eqn:K1; [|discriminate].
      destruct (parseBody toks fuel [] [] (S (S p))) as [[[fs' cs'] q']| |] eqn:Eb;
        try discriminate.
      destruct (nth_error toks q') as [r|] eqn:E2; [|discriminate].
      destruct (kind_eqb (kind r) rbr) eqn:K2; [|discriminate].
      injection H as <- <-. apply IHb in Eb as [Hb Hw].
      apply kind_eqb_eq in K1, K2.
      count_tok E K. count_tok E1 K1. count_tok E2 K2.
      rewrite weight_eq. cbn [List.length map list_sum fold_right] in Hw. lia.
  - destruct (look toks p) as [E|t E K|t E K|t f E K E1 F|t E K F].
    + rewrite parseBody_end in H by done. discriminate.
    + rewrite (parseBody_sym _ _ _ _ _ _ E K) in H. apply IHb in H as [Hb Hw].
      count_tok E K. rewrite weights_snoc in Hw. unfold leafNode in Hw.
      rewrite weight_eq in Hw. cbn in Hw. lia.
    + rewrite (parseBody_close _ _ _ _ _ _ E K) in H. injection H as <- <- <-. lia.
    + rewrite (parseBody_feature _ _ _ _ _ _ _ E K E1 F) in H.
      destruct (nth_error toks (S (S p))) as [r|] eqn:E2; [|discriminate].
      destruct (kind_eqb (kind r) rbr) eqn:K2; [|discriminate].
      apply IHb in H as [Hb Hw]. cbn [isFeatureTok] in F.
      apply andb_prop in F as [K1 _]. apply kind_eqb_eq in K1, K2.
      count_tok E K. count_tok E1 K1. count_tok E2 K2.
      rewrite length_app in Hw. cbn [List.length] in Hw. lia.
    + rewrite (parseBody_child _ _ _ _ _ _ E K F) in H.
      destruct (parseNode toks fuel p) as [[c q']| |] eqn:En; try discriminate.
      apply IHn in En as [Hb1 Hw1]. apply IHb in H as [Hb2 Hw2].
      rewrite weights_snoc in Hw2. lia.
Qed.

End ParserMore.

Section ParserMoreClaims.

Import Parse Grammar Tokens.

Lemma parseTree_consumed src toks root :
  tokenize src = Ok toks -> parseTree src = Ok root ->
  balanced toks 0 (List.length toks) /\
  seen toks sym (List.length toks) = seen toks sym 0 + weight root.
Proof.
  intros Ht H. unfold parseTree in H. rewrite Ht in H.
  destruct (parseNode toks (parseFuel toks) 0) as [[r p]| |] eqn:E; try discriminate.
  destruct (Nat.eqb_spec p (List.length toks)) as [->|]; [|discriminate].
  injection H as ->. by apply (consumed toks (parseFuel toks)).
Qed.

(** X5.  A text that parses has as many open-bracket tokens as
    close-bracket tokens. *)
Theorem parsed_brackets_balance src toks root :
  tokenize src = Ok toks -> parseTree src = Ok root ->
  countKind lbr toks = countKind rbr toks.
Proof.
  intros Ht H. destruct (parseTree_consumed _ _ _ Ht H) as [Hb _].
  unfold balanced in Hb. rewrite !seen_all, !seen_0 in Hb. lia.
Qed.

Lemma parsed_brackets_balance_witness :
  countKind lbr [mkTok lbr "["; mkTok sym "A"; mkTok sym "b"; mkTok rbr "]"] =
  countKind rbr [mkTok lbr "["; mkTok sym "A"; mkTok sym "b"; mkTok rbr "]"].
Proof.
  apply (parsed_brackets_balance "[A b]" _ (mkNode "A" [] None [mkNode "b" [] None []]));
    reflexivity.
Defined.

(** X6.  Every symbol token of a text that parses becomes one node or
    one feature of the tree, and nothing else does: the nodes and the
    features of the tree are as many as the symbol tokens. *)
Theorem parsed_symbols_accounted src toks root :
  tokenize src = Ok toks -> parseTree src = Ok root ->
  countKind sym toks = Store.nodeSize root + featureCount root.
Proof.
  intros Ht H. destruct (parseTree_consumed _ _ _ Ht H) as [_ Hw].
  rewrite seen_all, seen_0 in Hw. exact Hw.
Qed.

Lemma parsed_symbols_accounted_witness :
  countKind sym [mkTok lbr "["; mkTok sym "A"; mkTok lbr "["; mkTok sym "+F";
                 mkTok rbr "]"; mkTok sym "b"; mkTok rbr "]"] = 2 + 1.
Proof.
  apply (parsed_symbols_accounted "[A [+F] b]" _
           (mkNode "A" [mkFeature Plus "F"] None [mkNode "b" [] None []]));
    reflexivity.
Defined.

Lemma cut_at_first_hash s :
  match hid (parseFeaturesPart s) with
  | None => base (parseFeaturesPart s) = s /\ Js.indexOf "#" s = None
  | Some i =>
      s = (base (parseFeaturesPart s) ++ String "#" i)%string /\
      Js.indexOf "#" (base (parseFeaturesPart s)) = None
  end.
Proof.
  unfold parseFeaturesPart. destruct (Js.indexOf "#" s) as [h|] eqn:E; cbn [hid base].
  - by apply indexOf_split.
  - by split.
Qed.

(** X7.  [parseFeaturesPart] cuts a token at its first hash and loses
    nothing: without a hash the label is the token and there is no
    identifier; with one, the token is the label, the hash and the
    identifier, and the label has no hash. *)
Theorem parseFeaturesPart_cuts s :
  match hid (parseFeaturesPart s) with
  | None => base (parseFeaturesPart s) = s /\ Js.indexOf "#" s = None
  | Some i =>
      s = (base (parseFeaturesPart s) ++ String "#" i)%string /\
      Js.indexOf "#" (base (parseFeaturesPart s)) = None
  end.
Proof. exact (cut_at_first_hash s). Qed.

(** X8.  What [drawNodes] writes for a node built from a token is the
    token again, except that a hash at the very end of the token, which
    gives the empty identifier, is not shown. *)
Theorem shownLabel_of_token s :
  let head := parseFeaturesPart s in
  let shown := Scene.shownLabel (base head) (hid head) in
  if Js.truthy (hid head) then shown = s
  else match hid head with
       | Some _ => s = (shown ++ "#")%string
       | None => shown = s
       end.
Proof.
  cbv zeta. pose proof (cut_at_first_hash s) as H.
  destruct (hid (parseFeaturesPart s)) as [i|].
  - destruct H as [E _]. destruct i as [|c i]; cbn [Js.truthy Scene.shownLabel].
    + exact E.
    + cbn [Js.truthy]. symmetry. exact E.
  - cbn. apply H.
Qed.

End ParserMoreClaims.

(** ** The layout *)

Section LayoutMore.

Import Layout Tree Shape.
Local Open Scope Q_scope.

(** X9.  [layoutTree] changes coordinates only: with x and y reset, its
    result is the clone of the input, so the shape, the order of the
    children, the labels, features and identifiers and the box sizes are
    those of the input. *)
Theorem layoutTree_keeps_structure root :
  unplaced (layoutTree root) = clone root /\
  map (fun k => (label k, features k, id k)) (nodes (layoutTree root)) =
  map (fun k => (label k, features k, id k)) (nodes (clone root)).
Proof.
  pose proof (unplaced_layoutTree root) as E. split; [exact E|].
  rewrite <- E, nodes_unplaced, map_map. apply map_ext. by intros [].
Qed.

(** *** Depth and y *)

Lemma Forall_levels (P : nat * Positioned -> Prop) d l f i x0 y0 w0 h0 cs :
  Forall P (levels d (mkPositioned l f i x0 y0 w0 h0 cs)) <->
  P (d, mkPositioned l f i x0 y0 w0 h0 cs) /\
  Forall (fun c => Forall P (levels (S d) c)) cs.
Proof. cbn [levels]. rewrite Forall_cons_iff, Forall_flat_map. reflexivity. Qed.

Lemma Forall_nodes (P : Positioned -> Prop) l f i x0 y0 w0 h0 cs :
  Forall P (nodes (mkPositioned l f i x0 y0 w0 h0 cs)) <->
  P (mkPositioned l f i x0 y0 w0 h0 cs) /\ Forall (fun c => Forall P (nodes c)) cs.
Proof. cbn [nodes]. rewrite Forall_cons_iff, Forall_flat_map. reflexivity. Qed.

Lemma secondWalk_rows p : forall ox oy d,
  Forall (fun k => height k = NODE_H) (nodes p) ->
  Forall (fun ek => y (snd ek) == rowOf oy d (fst ek)) (levels d (secondWalk p ox oy)).
Proof.
  induction p as [l f i x0 y0 w0 h0 cs IH] using Positioned_tree_ind.
  intros ox oy d Hh. rewrite secondWalk_eq. apply Forall_levels.
  apply Forall_nodes in Hh as [Hroot Hcs]. cbn [height] in Hroot. subst h0. split.
  - cbn [fst snd y]. unfold rowOf. ring.
  - apply Forall_map. rewrite Forall_forall in IH, Hcs |- *. intros c Hc.
    specialize (IH c Hc (ox + x c - x c + 0) (oy + NODE_H + V_GAP) (S d) (Hcs c Hc)).
    eapply Forall_impl; [|exact IH]. intros [e k]. cbn [fst snd]. intros ->.
    unfold rowOf. rewrite numOfNat_S. ring.
Qed.

Lemma levels_shift p dx : forall d,
  levels d (shift p dx) = map (fun ek => (fst ek, shift (snd ek) dx)) (levels d p).
Proof.
  induction p as [l f i x0 y0 w0 h0 cs IH] using Positioned_tree_ind. intros d.
  cbn [shift levels map fst snd]. f_equal.
  induction IH as [|c cs Hc _ IHcs]; cbn [map flat_map]; [reflexivity|].
  by rewrite map_app, Hc, IHcs.
Qed.

Lemma y_shift k dx : y (shift k dx) = y k.
Proof. by destruct k. Qed.

Lemma heights_of_same p q :
  unplaced p = unplaced q ->
  Forall (fun k => height k = NODE_H) (nodes q) ->
  Forall (fun k => height k = NODE_H) (nodes p).
Proof.
  intros E Hq.
  assert (H : Forall (fun k => height k = NODE_H) (map unplaced (nodes q))).
  { apply Forall_map. eapply Forall_impl; [|exact Hq]. by intros []. }
  rewrite <- nodes_unplaced, <- E, nodes_unplaced in H.
  apply Forall_map in H. eapply Forall_impl; [|exact H]. by intros [].
Qed.

Lemma clone_heights root : Forall (fun k => height k = NODE_H) (nodes (clone root)).
Proof. eapply Forall_impl; [|apply clone_measured]. by intros k [_ H]. Qed.

Lemma layoutTree_rows root :
  Forall (fun ek => y (snd ek) == rowOf 0 0 (fst ek)) (levels 0 (layoutTree root)).
Proof.
  unfold layoutTree. pose proof (unplaced_firstWalk (clone root)) as E.
  destruct (firstWalk (clone root)) as [r totalW]. cbn [fst] in E.
  rewrite levels_shift. apply Forall_map.
  eapply Forall_impl; [|apply (secondWalk_rows r 0 0 0%nat)].
  - intros [e k]. cbn [fst snd]. by rewrite y_shift.
  - apply (heights_of_same r (clone root)); [exact E|apply clone_heights].
Qed.

(** X10.  In the tree [layoutTree] returns a node at depth [d], the root
    being at depth 0, has y = 50 d: the rows are one box height and one
    vertical gap apart. *)
Theorem layoutTree_y_is_depth root d k :
  In (d, k) (levels 0 (layoutTree root)) ->
  y k == (NODE_H + V_GAP) * numOfNat d /\ y k == 50 * numOfNat d.
Proof.
  intros H. pose proof (layoutTree_rows root) as R. rewrite Forall_forall in R.
  specialize (R _ H). cbn [fst snd] in R. unfold rowOf in R.
  split; rewrite R; unfold NODE_H, V_GAP, numOfNat; cbn [Z.of_nat]; ring.
Qed.

Lemma layoutTree_y_is_depth_witness :
  let t := Parse.mkNode "A" [] None [Parse.mkNode "b" [] None []] in
  exists k, In (1%nat, k) (levels 0 (layoutTree t)) /\ y k == 50 * numOfNat 1.
Proof.
  intros t. eexists. split.
  - right. left. reflexivity.
  - apply (fun H => proj2 (layoutTree_y_is_depth t 1 _ H)). right. left. reflexivity.
Defined.

(** *** The x of every box *)

Lemma spanOf_unplaced p : spanOf (unplaced p) = spanOf p.
Proof.
  induction p as [l f i x0 y0 w0 h0 cs IH] using Positioned_tree_ind.
  destruct cs as [|c cs]; [reflexivity|].
  cbn [unplaced]. set (kids := c :: cs) in *.
  assert (E : map spanOf (map unplaced kids) = map spanOf kids).
  { rewrite map_map. clear -IH. induction IH as [|d ds Hd _ IHds]; [reflexivity|].
    cbn [map]. by rewrite Hd, IHds. }
  change (spanOf (mkPositioned l f i 0 0 w0 h0 (map unplaced kids))) with
    (Qmax w0 (Qsum (map spanOf (map unplaced kids))
              + H_GAP * numOfNat (List.length (map unplaced kids) - 1))).
  by rewrite E, length_map.
Qed.

Lemma spans_same cs cs' :
  map unplaced cs = map unplaced cs' -> map spanOf cs = map spanOf cs'.
Proof.
  revert cs'. induction cs as [|c cs IH]; intros [|c' cs'] E; try discriminate; [reflexivity|].
  injection E as E1 E2. cbn [map].
  by rewrite <- (spanOf_unplaced c), E1, spanOf_unplaced, (IH _ E2).
Qed.

Lemma localOffset_same p q : unplaced p = unplaced q -> localOffset p = localOffset q.
Proof.
  destruct p as [l f i x0 y0 w0 h0 cs], q as [l' f' i' x0' y0' w0' h0' cs'].
  cbn [unplaced]. intros [= -> -> -> -> -> E]. unfold localOffset. cbn [children width].
  pose proof (spans_same _ _ E) as Es.
  assert (El : List.length cs = List.length cs')
    by (by rewrite <- (length_map unplaced cs), E, length_map).
  destruct cs, cs'; try discriminate; [reflexivity|]. by rewrite Es, El.
Qed.

Lemma firstWalkEach_spans len cs :
  Forall (fun c => snd (firstWalk c) == spanOf c) cs ->
  forall i ws, (i + List.length cs = len)%nat ->
    snd (firstWalkEach firstWalk len cs i ws) ==
    ws + Qsum (map spanOf cs) + H_GAP * numOfNat (List.length cs - 1).
Proof.
  induction 1 as [|c cs Hc _ IH]; intros i ws Hlen; cbn [firstWalkEach map].
  - change (ws == ws + 0 + H_GAP * 0). lra.
  - destruct (firstWalk c) as [c' w]. cbn [snd] in Hc.
    cbn [List.length] in Hlen.
    match goal with |- context [firstWalkEach _ _ _ ?j ?v] =>
      specialize (IH j v ltac:(lia));
      destruct (firstWalkEach firstWalk len cs j v) as [rest' ws'] end.
    cbn [snd] in *. rewrite IH. cbn [Qsum fold_right List.length]. fold (Qsum (map spanOf cs)).
    destruct cs as [|d cs].
    + replace (i <? len - 1)%nat with false by (symmetry; apply Nat.ltb_ge; cbn in Hlen; lia).
      change (ws + w + 0 + H_GAP * 0 == ws + (spanOf c + 0) + H_GAP * 0). rewrite Hc. lra.
    + replace (i <? len - 1)%nat with true by (symmetry; apply Nat.ltb_lt; cbn in Hlen; lia).
      cbn [List.length]. rewrite !Nat.sub_succ, !Nat.sub_0_r, numOfNat_S. lra.
Qed.

Lemma firstWalkEach_offsets len cs :
  Forall (fun c => offsetsBy 0 (fst (firstWalk c))) cs ->
  forall i ws, Forall (offsetsBy 0) (fst (firstWalkEach firstWalk len cs i ws)).
Proof.
  induction 1 as [|c cs Hc _ IH]; intros i ws; cbn [firstWalkEach]; [constructor|].
  destruct (firstWalk c) as [c' w]. cbn [fst] in Hc.
  match goal with |- context [firstWalkEach _ _ _ ?j ?v] =>
    specialize (IH j v); destruct (firstWalkEach firstWalk len cs j v) end.
  cbn [fst] in *. by constructor.
Qed.

Lemma firstWalk_offsets p :
  snd (firstWalk p) == spanOf p /\ offsetsBy 0 (fst (firstWalk p)).
Proof.
  induction p as [l f i x0 y0 w0 h0 cs IH] using Positioned_tree_ind.
  destruct cs as [|c cs].
  - cbn [firstWalk fst snd spanOf]. split; [reflexivity|].
    apply Forall_nodes. split; [|constructor]. unfold localOffset. cbn. lra.
  - set (kids := c :: cs) in *.
    assert (H1 : Forall (fun c => snd (firstWalk c) == spanOf c) kids)
      by (eapply Forall_impl; [|exact IH]; by intros ? [? _]).
    assert (H2 : Forall (fun c => offsetsBy 0 (fst (firstWalk c))) kids)
      by (eapply Forall_impl; [|exact IH]; by intros ? [_ ?]).
    assert (Hall : Forall (fun c => unplaced (fst (firstWalk c)) = unplaced c) kids)
      by (apply Forall_forall; intros q _; apply unplaced_firstWalk).
    pose proof (firstWalkEach_spans (List.length kids) kids H1 0%nat 0 eq_refl) as Hs.
    pose proof (firstWalkEach_offsets (List.length kids) kids H2 0%nat 0) as Ho.
    pose proof (unplaced_firstWalkEach (List.length kids) kids Hall 0%nat 0) as Hu.
    change (firstWalk (mkPositioned l f i x0 y0 w0 h0 kids)) with
      (let '(cs', widthSum) := firstWalkEach firstWalk (List.length kids) kids 0 0 in
       (mkPositioned l f i (widthSum / 2 - w0 / 2) y0 w0 h0 cs', Qmax w0 widthSum)).
    destruct (firstWalkEach firstWalk (List.length kids) kids 0 0) as [cs' widthSum].
    cbn [fst snd] in *. split.
    + change (spanOf (mkPositioned l f i x0 y0 w0 h0 kids)) with
        (Qmax w0 (Qsum (map spanOf kids) + H_GAP * numOfNat (List.length kids - 1))).
      apply Q.max_compat; [reflexivity|]. rewrite Hs. lra.
    + apply Forall_nodes. split; [|exact Ho].
      assert (El : List.length cs' = List.length kids)
        by (by rewrite <- (length_map unplaced cs'), Hu, length_map).
      pose proof (spans_same _ _ Hu) as Es.
      unfold localOffset. cbn [children width x].
      destruct cs' as [|c' cs'']; [discriminate|].
      rewrite Es, El, Hs. field.
Qed.

Lemma secondWalk_offsets p : forall ox oy,
  ox == 0 -> offsetsBy 0 p -> offsetsBy 0 (secondWalk p ox oy).
Proof.
  induction p as [l f i x0 y0 w0 h0 cs IH] using Positioned_tree_ind.
  intros ox oy Hox Hp.
  pose proof (localOffset_same _ _ (unplaced_secondWalk
                (mkPositioned l f i x0 y0 w0 h0 cs) ox oy)) as El.
  rewrite secondWalk_eq in *.
  apply Forall_nodes in Hp as [Hroot Hcs]. apply Forall_nodes. split.
  - rewrite El. cbn [x] in *. lra.
  - apply Forall_map. rewrite Forall_forall in IH, Hcs |- *.
    intros c Hc. apply IH; [done| |by apply Hcs]. rewrite Hox. ring.
Qed.

Lemma shift_offsets p v dx : offsetsBy v p -> offsetsBy (v + dx) (shift p dx).
Proof.
  unfold offsetsBy. rewrite nodes_shift, Forall_map. apply Forall_impl.
  intros k Hk. rewrite x_shift, (localOffset_same _ _ (unplaced_shift k dx)), Hk. lra.
Qed.

(** X11.  The x of a box depends on the subtree of its node alone: it is
    the offset the sizing pass computed for the node (0 for a leaf, half
    the span of the children less half the own width otherwise) less the
    least such offset in the tree.  Where the parent or the siblings
    are does not enter it. *)
Theorem layoutTree_x_is_local_offset root :
  exists m,
    (forall k, In k (nodes (layoutTree root)) -> x k == localOffset k - m) /\
    (forall k, In k (nodes (layoutTree root)) -> m <= localOffset k) /\
    (exists k, In k (nodes (layoutTree root)) /\ m == localOffset k).
Proof.
  assert (H : exists m, offsetsBy m (layoutTree root) /\
                        (forall k, In k (nodes (layoutTree root)) -> 0 <= x k) /\
                        (exists k, In k (nodes (layoutTree root)) /\ x k == 0)).
  { unfold layoutTree. pose proof (firstWalk_offsets (clone root)) as [_ Hf].
    destruct (firstWalk (clone root)) as [r0 totalW]. cbn [fst] in Hf.
    set (r := secondWalk r0 0 0).
    pose proof (visit_minOver r Infinity) as Hv. symmetry in Hv.
    exists (0 + visit r Infinity). split; [|split].
    - apply shift_offsets, secondWalk_offsets; [reflexivity|exact Hf].
    - intros n Hn. rewrite nodes_shift in Hn. apply in_map_iff in Hn as (k & <- & Hk).
      rewrite x_shift. apply minOver_lower in Hv.
      rewrite Forall_forall in Hv. specialize (Hv k Hk). lra.
    - destruct (minOver_attained _ _ _ Hv) as [(k & Hk & E)|(v & Hv' & _)]; [|discriminate].
      exists (shift k (visit r Infinity)). split.
      + rewrite nodes_shift. apply in_map_iff. by exists k.
      + rewrite x_shift. lra. }
  destruct H as (m & Ho & Hge & k0 & Hk0 & Ez). unfold offsetsBy in Ho.
  rewrite Forall_forall in Ho. exists m. split; [exact Ho|]. split.
  - intros k Hk. specialize (Ho k Hk). specialize (Hge k Hk). lra.
  - exists k0. split; [exact Hk0|]. specialize (Ho k0 Hk0). lra.
Qed.

End LayoutMore.

(** ** The drawing *)

Section SceneFacts.

Import Layout Tree Shape Render Scene Drawing.
Local Open Scope Q_scope.

(** *** The extent *)

Lemma extentVisit_fold n : forall wh, extentVisit n wh = fold_left grow (Tree.nodes n) wh.
Proof.
  induction n as [l f i x0 y0 w0 h0 cs IH] using Positioned_tree_ind. intros wh.
  cbn [extentVisit Tree.nodes fold_left].
  change (Qmax (fst wh) (x0 + w0), Qmax (snd wh) (y0 + h0)) with
    (grow wh (mkPositioned l f i x0 y0 w0 h0 cs)).
  generalize (grow wh (mkPositioned l f i x0 y0 w0 h0 cs)) as a.
  induction IH as [|c cs Hc _ IHcs]; intros a; cbn [fold_left flat_map]; [reflexivity|].
  by rewrite fold_left_app, IHcs, Hc.
Qed.

Lemma grow_all_ge l : forall wh,
  fst wh <= fst (fold_left grow l wh) /\ snd wh <= snd (fold_left grow l wh).
Proof.
  induction l as [|k l IH]; intros wh; cbn [fold_left]; [split; lra|].
  destruct (IH (grow wh k)) as [H1 H2].
  assert (fst wh <= fst (grow wh k)) by apply Q.le_max_l.
  assert (snd wh <= snd (grow wh k)) by apply Q.le_max_l. split; lra.
Qed.

Lemma grow_all_covers l : forall wh,
  Forall (fun k => x k + width k <= fst (fold_left grow l wh) /\
                   y k + height k <= snd (fold_left grow l wh)) l.
Proof.
  induction l as [|k l IH]; intros wh; constructor; cbn [fold_left]; [|apply IH].
  destruct (grow_all_ge l (grow wh k)) as [H1 H2].
  assert (x k + width k <= fst (grow wh k)) by apply Q.le_max_r.
  assert (y k + height k <= snd (grow wh k)) by apply Q.le_max_r. split; lra.
Qed.

Lemma grow_all_snd_le l b : forall wh,
  snd wh <= b -> Forall (fun k => y k + height k <= b) l ->
  snd (fold_left grow l wh) <= b.
Proof.
  induction l as [|k l IH]; intros wh Hw Hl; cbn [fold_left]; [exact Hw|].
  inversion Hl; subst. apply IH; [|done]. unfold grow. cbn [snd]. by apply Q.max_lub.
Qed.

Lemma drawNodes_groups n : drawNodes n = map groupOf (Tree.nodes n).
Proof.
  induction n as [l f i x0 y0 w0 h0 cs IH] using Positioned_tree_ind.
  cbn [drawNodes Tree.nodes map]. f_equal.
  induction IH as [|c cs Hc _ IHcs]; cbn [flat_map]; [reflexivity|].
  by rewrite map_app, Hc, IHcs.
Qed.

Lemma levels_nodes p : forall d, map snd (levels d p) = Tree.nodes p.
Proof.
  induction p as [l f i x0 y0 w0 h0 cs IH] using Positioned_tree_ind. intros d.
  cbn [levels Tree.nodes map snd]. f_equal.
  induction IH as [|c cs Hc _ IHcs]; cbn [flat_map]; [reflexivity|].
  by rewrite map_app, Hc, IHcs.
Qed.

Lemma numOfNat_nonneg n : 0 <= numOfNat n.
Proof.
  unfold numOfNat. change 0 with (inject_Z 0). rewrite <- Zle_Qle. lia.
Qed.

Lemma numOfNat_le a b : (a <= b)%nat -> numOfNat a <= numOfNat b.
Proof. intros H. unfold numOfNat. rewrite <- Zle_Qle. lia. Qed.

Lemma layoutTree_box_nonneg root k :
  In k (Tree.nodes (layoutTree root)) -> 0 <= x k /\ 0 <= y k.
Proof.
  intros Hk. split.
  - revert k Hk. unfold layoutTree. destruct (firstWalk (clone root)) as [r0 totalW].
    set (r := secondWalk r0 0 0).
    pose proof (visit_minOver r Infinity) as Hv. symmetry in Hv.
    intros n Hn. rewrite nodes_shift in Hn. apply in_map_iff in Hn as (k & <- & Hk).
    rewrite x_shift. apply minOver_lower in Hv.
    rewrite Forall_forall in Hv. specialize (Hv k Hk). lra.
  - rewrite <- (levels_nodes _ 0%nat) in Hk. apply in_map_iff in Hk as ([e k'] & <- & Hk).
    pose proof (layoutTree_rows root) as R. rewrite Forall_forall in R.
    specialize (R _ Hk). cbn [fst snd] in *. rewrite R. unfold rowOf.
    pose proof (numOfNat_nonneg e).
    change (numOfNat 0) with 0. unfold NODE_H, V_GAP. lra.
Qed.

(** X12.  Every box lies inside the drawing: it starts at or right of 0
    and at or below 0, and ends at least 8 before the right and the
    bottom edge of the [svg]. *)
Theorem boxes_inside_drawing root g :
  In g (nodes (renderTree root)) ->
  0 <= rectX (rect g) /\ rectX (rect g) + rectWidth (rect g) <= svgWidth (renderTree root) - 8 /\
  0 <= rectY (rect g) /\ rectY (rect g) + rectHeight (rect g) <= svgHeight (renderTree root) - 8.
Proof.
  unfold renderTree. cbn [nodes svgWidth svgHeight]. rewrite drawNodes_groups.
  intros Hg. apply in_map_iff in Hg as (k & <- & Hk). cbn [groupOf rect rectX rectY rectWidth rectHeight].
  destruct (layoutTree_box_nonneg root k Hk) as [Hx Hy].
  unfold computeExtent. rewrite extentVisit_fold.
  pose proof (grow_all_covers (Tree.nodes (layoutTree root)) (0, 0)) as Hc.
  rewrite Forall_forall in Hc. destruct (Hc k Hk) as [H1 H2].
  repeat split; lra.
Qed.

Lemma boxes_inside_drawing_witness :
  let t := Parse.mkNode "A" [] None [Parse.mkNode "b" [] None []] in
  exists g, In g (nodes (renderTree t)) /\
            rectX (rect g) + rectWidth (rect g) <= svgWidth (renderTree t) - 8.
Proof.
  intros t. eexists. split.
  - left. reflexivity.
  - apply (fun H => proj1 (proj2 (boxes_inside_drawing t _ H))). left. reflexivity.
Defined.

(** *** The width of the drawing *)

Lemma grow_all_fst_attained l : forall wh,
  fst (fold_left grow l wh) == fst wh \/
  exists k, In k l /\ fst (fold_left grow l wh) == x k + width k.
Proof.
  induction l as [|k l IH]; intros wh; cbn [fold_left]; [by left|].
  destruct (IH (grow wh k)) as [E|(k' & Hk' & E)].
  - unfold grow in E at 2. cbn [fst] in E.
    destruct (Q.max_spec (fst wh) (x k + width k)) as [[_ M]|[_ M]].
    + right. exists k. split; [by left|]. by rewrite E, M.
    + left. by rewrite E, M.
  - right. exists k'. split; [by right|exact E].
Qed.

Lemma layoutTree_widths root k :
  In k (Tree.nodes (layoutTree root)) -> NODE_W <= width k.
Proof.
  intros Hk. apply (in_map unplaced) in Hk.
  rewrite <- nodes_unplaced, unplaced_layoutTree in Hk.
  pose proof (clone_measured root) as H. rewrite Forall_forall in H.
  destruct (H _ Hk) as [Hw _]. destruct k as [l f i x0 y0 w0 h0 cs].
  cbn [unplaced width] in *. rewrite Hw. unfold labelWidth, measureText.
  apply Q.le_max_l.
Qed.

(** X24.  The drawing is as narrow as its boxes allow: some box ends
    exactly 8 before the right edge of the [svg]. *)
Theorem drawing_width_is_tight root :
  exists g, In g (nodes (renderTree root)) /\
            rectX (rect g) + rectWidth (rect g) == svgWidth (renderTree root) - 8.
Proof.
  unfold renderTree. cbn [nodes svgWidth]. rewrite drawNodes_groups.
  unfold computeExtent. rewrite extentVisit_fold.
  set (L := Tree.nodes (layoutTree root)).
  assert (Hroot : exists k0, In k0 L).
  { unfold L. destruct (layoutTree root) as [l f i x0 y0 w0 h0 cs].
    eexists. left. reflexivity. }
  destruct Hroot as [k0 Hk0].
  pose proof (grow_all_covers L (0, 0)) as Hc. rewrite Forall_forall in Hc.
  destruct (Hc k0 Hk0) as [Hc0 _].
  destruct (layoutTree_box_nonneg root k0 Hk0) as [Hx0 _].
  pose proof (layoutTree_widths root k0 Hk0) as Hw0. unfold NODE_W in Hw0.
  destruct (grow_all_fst_attained L (0, 0)) as [E|(k & Hk & E)].
  - cbn [fst] in E. lra.
  - exists (groupOf k). split; [by apply in_map|].
    cbn [groupOf rect rectX rectWidth]. lra.
Qed.

(** *** The height of the drawing *)

Lemma depthOf_unplaced p : depthOf (unplaced p) = depthOf p.
Proof.
  induction p as [l f i x0 y0 w0 h0 cs IH] using Positioned_tree_ind.
  cbn [unplaced depthOf]. do 2 f_equal. rewrite map_map.
  induction IH as [|c cs Hc _ IHcs]; cbn [map]; [reflexivity|]. by rewrite Hc, IHcs.
Qed.

Lemma depthOf_clone n : depthOf (clone n) = Tokens.treeDepth n.
Proof.
  induction n as [l f i cs IH] using Node_tree_ind.
  cbn [clone depthOf Tokens.treeDepth]. do 2 f_equal. rewrite map_map.
  induction IH as [|c cs Hc _ IHcs]; cbn [map]; [reflexivity|]. by rewrite Hc, IHcs.
Qed.

Lemma list_max_attained l : l <> [] -> In (list_max l) l.
Proof.
  induction l as [|a l IH]; [done|]. intros _. cbn [list_max fold_right].
  fold (list_max l). destruct l as [|b l].
  - left. cbn. lia.
  - destruct (Nat.max_spec a (list_max (b :: l))) as [[_ ->]|[_ ->]].
    + right. by apply IH.
    + by left.
Qed.

Lemma levels_below p : forall d,
  Forall (fun ek => (fst ek < d + depthOf p)%nat) (levels d p).
Proof.
  induction p as [l f i x0 y0 w0 h0 cs IH] using Positioned_tree_ind. intros d.
  apply Forall_levels. cbn [fst depthOf]. split; [lia|].
  rewrite Forall_forall in IH |- *. intros c Hc.
  eapply Forall_impl; [|apply (IH c Hc (S d))]. intros [e k]. cbn [fst].
  assert (depthOf c <= list_max (map depthOf cs))%nat.
  { pose proof (proj1 (list_max_le (map depthOf cs) _) (Nat.le_refl _)) as Hm.
    rewrite Forall_forall in Hm. apply Hm, in_map, Hc. }
  lia.
Qed.

Lemma levels_deepest p : forall d,
  exists k, In ((d + depthOf p - 1)%nat, k) (levels d p).
Proof.
  induction p as [l f i x0 y0 w0 h0 cs IH] using Positioned_tree_ind. intros d.
  destruct cs as [|c cs].
  - eexists. left. cbn [depthOf map list_max fold_right]. f_equal. lia.
  - set (kids := c :: cs) in *.
    assert (Hin : In (list_max (map depthOf kids)) (map depthOf kids))
      by (by apply list_max_attained).
    apply in_map_iff in Hin as (c0 & E0 & Hc0).
    rewrite Forall_forall in IH. destruct (IH c0 Hc0 (S d)) as [k Hk].
    exists k. cbn [levels depthOf]. right. apply in_flat_map. exists c0. split; [done|].
    assert (1 <= depthOf c0)%nat by (destruct c0; cbn; lia).
    replace (d + S (list_max (map depthOf kids)) - 1)%nat
      with (S d + depthOf c0 - 1)%nat by lia. exact Hk.
Qed.

Lemma layoutTree_heights root :
  Forall (fun k => height k = NODE_H) (Tree.nodes (layoutTree root)).
Proof.
  apply (heights_of_same _ (clone root)); [|apply clone_heights].
  by rewrite unplaced_layoutTree, unplaced_clone.
Qed.

(** X13.  The height of the drawing depends on the depth of the tree
    alone: for a tree of [n] levels it is 50 n - 20, that is [n] boxes,
    [n - 1] gaps and the margin of 8. *)
Theorem drawing_height_is_depth root :
  svgHeight (renderTree root) == 50 * numOfNat (Tokens.treeDepth root) - 20.
Proof.
  unfold renderTree. cbn [svgHeight]. unfold computeExtent. rewrite extentVisit_fold.
  set (r := layoutTree root). set (D := Tokens.treeDepth root).
  assert (HD : depthOf r = D).
  { unfold r, D. by rewrite <- depthOf_unplaced, unplaced_layoutTree, depthOf_clone. }
  assert (HD1 : (1 <= D)%nat) by (unfold D; destruct root; cbn; lia).
  pose proof (layoutTree_rows root) as R. fold r in R.
  pose proof (layoutTree_heights root) as Hh. fold r in Hh.
  rewrite <- (levels_nodes r 0%nat) in Hh. apply Forall_map in Hh.
  assert (Hrow : Forall (fun ek => y (snd ek) + height (snd ek)
                                   == 50 * numOfNat (fst ek) + 22) (levels 0 r)).
  { rewrite Forall_forall in R, Hh |- *. intros ek Hek.
    rewrite (R ek Hek), (Hh ek Hek). unfold rowOf, NODE_H, V_GAP.
    change (numOfNat 0) with 0. ring. }
  set (b := 50 * numOfNat (D - 1) + 22).
  assert (Hb : numOfNat D == numOfNat (D - 1) + 1).
  { replace D with (S (D - 1)) at 1 by lia. apply numOfNat_S. }
  assert (Hle : snd (fold_left grow (Tree.nodes r) (0, 0)) <= b).
  { apply grow_all_snd_le.
    - cbn [snd]. unfold b. pose proof (numOfNat_nonneg (D - 1)). lra.
    - rewrite <- (levels_nodes r 0%nat). apply Forall_map.
      pose proof (levels_below r 0) as Hl. rewrite HD in Hl.
      rewrite Forall_forall in Hrow, Hl |- *. intros ek Hek.
      rewrite (Hrow ek Hek). unfold b.
      assert (numOfNat (fst ek) <= numOfNat (D - 1))
        by (apply numOfNat_le; specialize (Hl ek Hek); cbn in Hl; lia).
      lra. }
  assert (Hge : b <= snd (fold_left grow (Tree.nodes r) (0, 0))).
  { destruct (levels_deepest r 0) as [k Hk]. rewrite HD in Hk. cbn [Nat.add] in Hk.
    pose proof (grow_all_covers (Tree.nodes r) (0, 0)) as Hc.
    rewrite Forall_forall in Hc, Hrow.
    assert (Hkn : In k (Tree.nodes r)).
    { rewrite <- (levels_nodes r 0%nat). apply in_map_iff. by eexists (_, k). }
    destruct (Hc k Hkn) as [_ H2]. specialize (Hrow _ Hk). cbn [fst snd] in Hrow.
    unfold b. lra. }
  unfold b in *. lra.
Qed.

(** *** The edges *)

Lemma drawEdges_links n : drawEdges n = map edgeOf (links n).
Proof.
  induction n as [l f i x0 y0 w0 h0 cs IH] using Positioned_tree_ind.
  cbn [drawEdges links]. set (par := mkPositioned l f i x0 y0 w0 h0 cs).
  change (flat_map (fun c => edgeOf (par, c) :: drawEdges c) cs =
          map edgeOf (flat_map (fun c => (par, c) :: links c) cs)).
  clearbody par.
  induction IH as [|c cs Hc _ IHcs]; cbn [flat_map map]; [reflexivity|].
  rewrite map_app, <- IHcs. cbn [map]. rewrite Hc. reflexivity.
Qed.

Lemma links_count n : S (List.length (links n)) = List.length (Tree.nodes n).
Proof.
  induction n as [l f i x0 y0 w0 h0 cs IH] using Positioned_tree_ind.
  cbn [links Tree.nodes List.length]. f_equal.
  generalize (mkPositioned l f i x0 y0 w0 h0 cs) as par. intros par.
  induction IH as [|c cs Hc _ IHcs]; cbn [flat_map]; [reflexivity|].
  rewrite !length_app. cbn [List.length]. rewrite Hc, IHcs. reflexivity.
Qed.

(** X14.  The drawing has one edge for every node but the root. *)
Theorem one_edge_per_child root :
  S (List.length (edges (renderTree root))) = List.length (nodes (renderTree root)).
Proof.
  unfold renderTree. cbn [edges nodes].
  rewrite drawEdges_links, drawNodes_groups, !length_map. apply links_count.
Qed.

Lemma y_secondWalk p ox oy : y (secondWalk p ox oy) = oy.
Proof. destruct p. by rewrite secondWalk_eq. Qed.

Lemma height_secondWalk p ox oy : height (secondWalk p ox oy) = height p.
Proof. destruct p. by rewrite secondWalk_eq. Qed.

Lemma links_secondWalk p : forall ox oy,
  Forall (fun pc => y (snd pc) = y (fst pc) + height (fst pc) + V_GAP)
         (links (secondWalk p ox oy)).
Proof.
  induction p as [l f i x0 y0 w0 h0 cs IH] using Positioned_tree_ind. intros ox oy.
  rewrite secondWalk_eq. cbn [links]. apply Forall_flat_map, Forall_map.
  rewrite Forall_forall in IH |- *. intros c Hc. constructor; [|by apply IH].
  cbn [fst snd y height]. by rewrite y_secondWalk.
Qed.

Lemma links_shift p dx :
  links (shift p dx) = map (fun pc => (shift (fst pc) dx, shift (snd pc) dx)) (links p).
Proof.
  induction p as [l f i x0 y0 w0 h0 cs IH] using Positioned_tree_ind.
  set (par := mkPositioned l f i x0 y0 w0 h0 cs).
  change (flat_map (fun c => (shift par dx, c) :: links c) (map (fun c => shift c dx) cs) =
          map (fun pc => (shift (fst pc) dx, shift (snd pc) dx))
              (flat_map (fun c => (par, c) :: links c) cs)).
  clearbody par.
  induction IH as [|c cs Hc _ IHcs]; cbn [map flat_map]; [reflexivity|].
  rewrite map_app, <- IHcs. cbn [map fst snd]. rewrite Hc. reflexivity.
Qed.

Lemma layoutTree_links root :
  Forall (fun pc => y (snd pc) = y (fst pc) + height (fst pc) + V_GAP)
         (links (layoutTree root)).
Proof.
  unfold layoutTree. destruct (firstWalk (clone root)) as [r totalW].
  rewrite links_shift. apply Forall_map.
  eapply Forall_impl; [|apply links_secondWalk]. intros [a b]. cbn [fst snd].
  rewrite !y_shift. by destruct a.
Qed.

(** X15.  Every edge of the drawing runs from the middle of the bottom
    of a parent's box to the middle of the top of its child's box; it
    goes down by the vertical gap of 28 and turns halfway, 14 below the
    parent. *)
Theorem edges_drop_by_the_gap root e :
  In e (edges (renderTree root)) ->
  exists parent child,
    In (parent, child) (links (layoutTree root)) /\
    ex1 e = x parent + width parent / 2 /\ ey1 e = y parent + height parent /\
    ex2 e = x child + width child / 2 /\ ey2 e = y child /\
    ey2 e == ey1 e + 28 /\ emid e == ey1 e + 14.
Proof.
  unfold renderTree. cbn [edges]. rewrite drawEdges_links.
  intros He. apply in_map_iff in He as ([a b] & <- & Hab).
  pose proof (layoutTree_links root) as Hl. rewrite Forall_forall in Hl.
  specialize (Hl _ Hab). cbn [fst snd] in Hl.
  exists a, b. unfold edgeOf. cbn [fst snd ex1 ey1 ex2 ey2 emid].
  repeat split; try done; rewrite Hl; unfold V_GAP; field.
Qed.

Lemma edges_drop_by_the_gap_witness :
  let t := Parse.mkNode "A" [] None [Parse.mkNode "b" [] None []] in
  exists e, In e (edges (renderTree t)) /\ ey2 e == ey1 e + 28.
Proof.
  intros t. eexists. split; [left; reflexivity|].
  destruct (edges_drop_by_the_gap t _ (or_introl eq_refl))
    as (a & b & _ & _ & _ & _ & _ & H & _).
  exact H.
Defined.

(** *** The badges *)

Lemma length_append_one s c : String.length (s ++ String c EmptyString) = S (String.length s).
Proof. induction s as [|d s IH]; cbn; [reflexivity|]. by rewrite IH. Qed.

Lemma badgeText_length f : String.length (badgeText f) = (String.length (Parse.name f) + 3)%nat.
Proof.
  unfold badgeText. destruct f as [[] nm]; cbn [Parse.sign Parse.name signText];
    cbn [append String.length]; change "]"%string with (String "]" EmptyString);
    rewrite length_append_one; lia.
Qed.

(** X16.  The badges of a node: one for each feature, in the order of
    the features, with the text of the feature in brackets; the first
    one 8 left of where the packing starts, and each next one further
    left by 6 for every character of the badge before it and 10 more. *)
Theorem badges_packed_leftward ny fs off :
  map textContent (drawBadges ny fs off) = map badgeText fs /\
  Forall (fun b => textY b = ny + 15) (drawBadges ny fs off) /\
  (forall b, nth_error (drawBadges ny fs off) 0 = Some b -> textX b = off - 8) /\
  (forall i f b b',
      nth_error fs i = Some f ->
      nth_error (drawBadges ny fs off) i = Some b ->
      nth_error (drawBadges ny fs off) (S i) = Some b' ->
      textX b' == textX b - (6 * numOfNat (String.length (Parse.name f) + 3) + 10)).
Proof.
  split; [|split; [|split]].
  - revert off. induction fs as [|f fs IH]; intros off; cbn [drawBadges map]; [reflexivity|].
    by rewrite IH.
  - revert off. induction fs as [|f fs IH]; intros off; cbn [drawBadges]; constructor;
      [reflexivity|apply IH].
  - destruct fs; cbn [drawBadges nth_error]; [discriminate|]. by intros b [= <-].
  - revert off. induction fs as [|f0 fs IH]; intros off i f b b' Hf Hb Hb'.
    + by destruct i.
    + destruct i as [|i]; cbn [drawBadges nth_error] in *.
      * injection Hf as <-. injection Hb as <-.
        destruct fs as [|f1 fs]; cbn [drawBadges nth_error] in Hb'; [discriminate|].
        injection Hb' as <-. cbn [textX].
        pose proof (badgeText_length f0) as L. unfold badgeText in L.
        cbn [append String.length] in L. rewrite L. ring.
      * by eapply IH.
Qed.

Lemma badges_packed_leftward_witness :
  let fs := [Parse.mkFeature Parse.Plus "WH"; Parse.mkFeature Parse.Minus "Q"] in
  exists b b',
    nth_error (drawBadges 0 fs 92) 0 = Some b /\
    nth_error (drawBadges 0 fs 92) 1 = Some b' /\
    textX b' == textX b - (6 * numOfNat (2 + 3) + 10).
Proof.
  intros fs. eexists _, _. split; [reflexivity|]. split; [reflexivity|].
  apply (proj2 (proj2 (proj2 (badges_packed_leftward 0 fs 92))) 0%nat
           (Parse.mkFeature Parse.Plus "WH")); reflexivity.
Defined.

End SceneFacts.

(** ** Movement, further *)

Section MovementMore.

Import Layout Render Scene Tree Movement Groups.

(** *** What the groups hold *)

Lemma sorted_visitNode L m n : In n L -> sorted L m -> sorted L (visitNode m n).
Proof.
  intros Hn Hm. unfold visitNode.
  destruct (id n) as [s|] eqn:Ei; [|exact Hm].
  destruct (Js.truthy (Some s)) eqn:Et; [|exact Hm].
  assert (Hrec : forall r, JsMap.get m s = Some r ->
            (forall o, origin r = Some o -> In o L /\ String.eqb (label o) "t" = false) /\
            Forall (fun t => In t L /\ String.eqb (label t) "t" = true) (traces r)).
  { intros r Hr. apply get_in in Hr. by apply (Hm _ _ Hr). }
  intros k r Hin. apply in_set in Hin as [[= -> ->]|Hin]; [|by apply (Hm k r)].
  destruct (JsMap.get m s) as [r0|].
  - destruct (Hrec r0 eq_refl) as [Ho Ht].
    destruct (String.eqb (label n) "t") eqn:El; cbn [origin traces]; split; try done.
    + apply Forall_app. split; [done|]. by constructor.
    + by intros o [= <-].
  - destruct (String.eqb (label n) "t") eqn:El; cbn [origin traces]; split; try done.
    + by constructor.
    + by intros o [= <-].
Qed.

Lemma sorted_fold L l : forall m,
  (forall n, In n l -> In n L) -> sorted L m -> sorted L (fold_left visitNode l m).
Proof.
  induction l as [|n l IH]; intros m Hsub H; [exact H|].
  cbn [fold_left]. apply IH.
  - intros k Hk. apply Hsub. by right.
  - apply sorted_visitNode; [apply Hsub; by left|exact H].
Qed.

Lemma sorted_walk root : sorted (nodes root) (walk root JsMap.empty).
Proof. rewrite walk_fold. apply sorted_fold; [done|]. intros k r []. Qed.

(** X17.  Every movement path joins two nodes of the tree that carry
    the same non-empty identifier: it starts at one that is not labelled
    [t] and ends at one that is. *)
Theorem paths_join_origin_and_trace root p :
  In p (drawMovement root) ->
  exists k o t,
    In o (nodes root) /\ In t (nodes root) /\
    k <> EmptyString /\ id o = Some k /\ id t = Some k /\
    label o <> "t" /\ label t = "t" /\
    p = movePath o t.
Proof.
  unfold drawMovement. intros Hp. apply in_flat_map in Hp as ([k r] & Hkr & Hp).
  cbn [snd] in Hp. unfold drawGroup in Hp.
  destruct (origin r) as [o|] eqn:Eo; [|done].
  apply in_map_iff in Hp as (t & <- & Ht).
  destruct (keyed_walk root k r Hkr) as (Hk & Hok & Htk).
  destruct (sorted_walk root k r Hkr) as (Hos & Hts).
  rewrite Forall_forall in Htk, Hts. destruct (Hos o Eo) as [Ho Hlo].
  destruct (Hts t Ht) as [Htn Hlt].
  exists k, o, t. repeat split; try done.
  - by apply Hok.
  - by apply Htk.
  - by apply String.eqb_neq.
  - by apply String.eqb_eq.
Qed.

Lemma paths_join_origin_and_trace_witness :
  let o := mkPositioned "DP" [] (Some "wh") 0 50 36 22 [] in
  let t := mkPositioned "t" [] (Some "wh") 0 50 36 22 [] in
  let root := mkPositioned "CP" [] None 0 0 36 22 [o; t] in
  exists k a b, In a (nodes root) /\ In b (nodes root) /\ k <> EmptyString /\
    id a = Some k /\ id b = Some k /\ label a <> "t" /\ label b = "t" /\
    movePath o t = movePath a b.
Proof.
  intros o t root. apply (paths_join_origin_and_trace root (movePath o t)).
  left. reflexivity.
Defined.

(** X18.  Every movement path of the drawing ends in the arrow marker
    that the drawing defines. *)
Theorem paths_use_the_defined_marker root p :
  In p (moves (renderTree root)) ->
  markerEnd p = ("url(#" ++ markerId (defs (renderTree root)) ++ ")")%string /\
  class p = "ling-tree-move".
Proof.
  unfold renderTree. cbn [moves defs]. unfold drawMovement.
  intros Hp. apply in_flat_map in Hp as ([k r] & _ & Hp). cbn [snd] in Hp.
  unfold drawGroup in Hp. destruct (origin r) as [o|]; [|done].
  by apply in_map_iff in Hp as (t & <- & _).
Qed.

Lemma paths_use_the_defined_marker_witness :
  let t := Parse.mkNode "CP" [] None
             [Parse.mkNode "DP" [] (Some "wh") []; Parse.mkNode "t" [] (Some "wh") []] in
  exists p, In p (moves (renderTree t)) /\ class p = "ling-tree-move".
Proof.
  intros t. eexists. split; [left; reflexivity|].
  apply (fun H => proj2 (paths_use_the_defined_marker t _ H)). left. reflexivity.
Defined.

(** *** The keys *)

Lemma keys_set {V} (m : JsMap.t V) k v :
  map fst (JsMap.set m k v) =
  if existsb (String.eqb k) (map fst m) then map fst m else map fst m ++ [k].
Proof.
  induction m as [|[k0 v0] m IH]; cbn [JsMap.set map fst existsb app]; [reflexivity|].
  destruct (String.eqb_spec k0 k) as [->|Hne].
  - by rewrite String.eqb_refl.
  - assert (E : String.eqb k k0 = false) by (apply String.eqb_neq; congruence).
    rewrite E. cbn [map fst orb]. rewrite IH.
    by destruct (existsb (String.eqb k) (map fst m)).
Qed.

Lemma keys_set_NoDup {V} (m : JsMap.t V) k v :
  List.NoDup (map fst m) -> List.NoDup (map fst (JsMap.set m k v)).
Proof.
  intros H. rewrite keys_set. destruct (existsb (String.eqb k) (map fst m)) eqn:E; [done|].
  apply List.NoDup_app; [done|constructor; [intros []|constructor]|].
  intros k' Hx [<-|[]].
  assert (existsb (String.eqb k) (map fst m) = true); [|congruence].
  apply existsb_exists. exists k. split; [done|apply String.eqb_refl].
Qed.

Lemma get_keys {V} (m : JsMap.t V) k :
  In k (map fst m) <-> JsMap.get m k <> None.
Proof.
  induction m as [|[k0 v0] m IH]; cbn [map fst In JsMap.get]; [by split|].
  destruct (String.eqb_spec k0 k) as [->|Hne].
  - split; [done|by left].
  - rewrite <- IH. split; [by intros [|]|by right].
Qed.

(** X19.  The keys of the map of [drawMovement] are the non-empty
    identifiers that occur in the tree, each once. *)
Theorem movement_keys root :
  List.NoDup (map fst (walk root JsMap.empty)) /\
  (forall k, In k (map fst (walk root JsMap.empty)) <->
             exists n, In n (nodes root) /\ id n = Some k /\ k <> EmptyString).
Proof.
  split.
  - rewrite walk_fold. generalize (nodes root) as l.
    assert (H : List.NoDup (map fst (@JsMap.empty Rec))) by constructor.
    revert H. generalize (@JsMap.empty Rec) as m. intros m H l. revert m H.
    induction l as [|n l IH]; intros m H; [exact H|].
    cbn [fold_left]. apply IH. unfold visitNode.
    destruct (id n) as [s|]; [|exact H]. destruct (Js.truthy (Some s)); [|exact H].
    by apply keys_set_NoDup.
  - intros k. rewrite get_keys, walk_fold, get_fold, step_fold_None.
    destruct (existsb (hasKey k) (nodes root)) eqn:E.
    + split; [intros _|done]. apply existsb_exists in E as (n & Hn & Hk).
      exists n. split; [done|]. unfold hasKey in Hk.
      destruct (id n) as [s|]; [|discriminate]. apply andb_prop in Hk as [Ht Hs].
      apply String.eqb_eq in Hs as ->. split; [done|]. by destruct k.
    + split; [done|]. intros (n & Hn & Hi & Hk).
      assert (existsb (hasKey k) (nodes root) = true); [|congruence].
      apply existsb_exists. exists n. split; [done|]. unfold hasKey. rewrite Hi.
      rewrite String.eqb_refl. by destruct k.
Qed.

(** *** collectPositions *)

Lemma get_collectNode m n k :
  JsMap.get (collectNode m n) k = collectStep k (JsMap.get m k) n.
Proof.
  unfold collectNode, collectStep, hasKey. destruct (id n) as [s|]; [|reflexivity].
  destruct (Js.truthy (Some s)); [|reflexivity]. cbn [andb].
  destruct (String.eqb_spec s k) as [->|Hne].
  - by rewrite get_set_eq.
  - by rewrite get_set_ne.
Qed.

Lemma collect_fold_Some k l : forall a,
  fold_left (collectStep k) l (Some a) = Some (a ++ filter (hasKey k) l).
Proof.
  induction l as [|n l IH]; intros a; cbn [fold_left filter]; [by rewrite app_nil_r|].
  unfold collectStep at 2. destruct (hasKey k n); [|apply IH].
  by rewrite IH, <- app_assoc.
Qed.

Lemma collect_fold_None k l :
  fold_left (collectStep k) l None =
  if existsb (hasKey k) l then Some (filter (hasKey k) l) else None.
Proof.
  induction l as [|n l IH]; cbn [fold_left existsb filter]; [reflexivity|].
  unfold collectStep at 2. destruct (hasKey k n); cbn [orb]; [|apply IH].
  by rewrite collect_fold_Some.
Qed.

(** X20.  [collectPositions] has an entry for a key exactly when some
    node carries it as its non-empty identifier, and the entry is the
    list of those nodes in pre-order. *)
Theorem collectPositions_by_id root k :
  JsMap.get (collectPositions root) k =
  if existsb (hasKey k) (nodes root)
  then Some (filter (hasKey k) (nodes root))
  else None.
Proof.
  unfold collectPositions. rewrite collectWalk_fold.
  assert (H : forall l m, JsMap.get (fold_left collectNode l m) k =
                          fold_left (collectStep k) l (JsMap.get m k)).
  { induction l as [|n l IH]; intros m; cbn [fold_left]; [reflexivity|].
    by rewrite IH, get_collectNode. }
  rewrite H. apply collect_fold_None.
Qed.

End MovementMore.

(** ** White space around a text *)

Section WhiteSpace.

Import Parse Tokens.

Lemma space_is_no_delimiter c :
  Js.isSpace c = true ->
  Ascii.eqb c "[" = false /\ Ascii.eqb c "]" = false /\ Ascii.eqb c Js.dquote = false.
Proof. destruct c as [[] [] [] [] [] [] [] []]; intros H; try discriminate H; by repeat split. Qed.

Lemma tokenizeLoop_fuel f1 : forall f2 s out,
  String.length s < f1 -> String.length s < f2 ->
  tokenizeLoop f1 s out = tokenizeLoop f2 s out.
Proof.
  induction f1 as [|f1 IH]; intros f2 s out H1 H2; [lia|].
  destruct f2 as [|f2]; [lia|].
  destruct s as [|c s]; [reflexivity|]. cbn [tokenizeLoop String.length] in *.
  destruct (Js.isSpace c) eqn:Esp; [apply IH; lia|].
  destruct (Ascii.eqb c "[") eqn:El; [apply IH; lia|].
  destruct (Ascii.eqb c "]") eqn:Er; [apply IH; lia|].
  destruct (Ascii.eqb c Js.dquote).
  - pose proof (scanQuoted_length s) as Hq.
    destruct (scanQuoted s) as [buf rest]. cbn [snd] in Hq.
    destruct rest as [|d rest]; [reflexivity|]. cbn [String.length] in Hq. apply IH; lia.
  - cbn [scanSymbol]. unfold Js.isSpaceOrBracket. rewrite Esp, El, Er. cbn [orb].
    pose proof (scanSymbol_length s) as Hq.
    destruct (scanSymbol s) as [buf rest]. cbn [snd] in Hq. apply IH; lia.
Qed.

Lemma scanSymbol_then_space s c :
  Js.isSpace c = true ->
  scanSymbol (s ++ String c EmptyString) =
  (fst (scanSymbol s), (snd (scanSymbol s) ++ String c EmptyString)%string).
Proof.
  intros Hc. induction s as [|d s IH]; cbn [append scanSymbol].
  - unfold Js.isSpaceOrBracket. by rewrite Hc.
  - destruct (Js.isSpaceOrBracket d); [reflexivity|].
    rewrite IH. by destruct (scanSymbol s).
Qed.

Lemma scanQuoted_then_space s c :
  Js.isSpace c = true ->
  scanQuoted (s ++ String c EmptyString) =
  match snd (scanQuoted s) with
  | EmptyString => ((fst (scanQuoted s) ++ String c EmptyString)%string, EmptyString)
  | String d r => (fst (scanQuoted s), String d (r ++ String c EmptyString))
  end.
Proof.
  intros Hc. destruct (space_is_no_delimiter c Hc) as (_ & _ & Hq).
  induction s as [|d s IH]; cbn [append scanQuoted].
  - by rewrite Hq.
  - destruct (Ascii.eqb d Js.dquote); [reflexivity|].
    rewrite IH. by destruct (scanQuoted s) as [buf [|e r]].
Qed.

Lemma length_append_char s c :
  String.length (s ++ String c EmptyString) = S (String.length s).
Proof. induction s as [|d s IH]; cbn; [reflexivity|]. by rewrite IH. Qed.

Lemma tokenizeLoop_then_space fuel : forall s out c,
  Js.isSpace c = true -> String.length s + 1 < fuel ->
  tokenizeLoop fuel (s ++ String c EmptyString) out = tokenizeLoop fuel s out.
Proof.
  induction fuel as [|fuel IH]; intros s out c Hc Hlt; [lia|].
  destruct s as [|d s].
  - cbn [append tokenizeLoop]. rewrite Hc. destruct fuel; [cbn in Hlt; lia|reflexivity].
  - cbn [String.length] in Hlt.
    change ((String d s ++ String c EmptyString)%string)
      with (String d (s ++ String c EmptyString)).
    cbn [tokenizeLoop].
    destruct (Js.isSpace d) eqn:Esp; [apply IH; [done|lia]|].
    destruct (Ascii.eqb d "[") eqn:El; [apply IH; [done|lia]|].
    destruct (Ascii.eqb d "]") eqn:Er; [apply IH; [done|lia]|].
    destruct (Ascii.eqb d Js.dquote).
    + rewrite (scanQuoted_then_space s c Hc).
      pose proof (scanQuoted_length s) as Hq.
      destruct (scanQuoted s) as [buf [|e r]]; cbn [fst snd] in *; [reflexivity|].
      cbn [String.length] in Hq. apply IH; [done|lia].
    + change (String d (s ++ String c EmptyString))
        with ((String d s ++ String c EmptyString)%string).
      rewrite (scanSymbol_then_space (String d s) c Hc).
      cbn [scanSymbol]. unfold Js.isSpaceOrBracket. rewrite Esp, El, Er. cbn [orb].
      pose proof (scanSymbol_length s) as Hq.
      destruct (scanSymbol s) as [buf rest]. cbn [fst snd] in *. apply IH; [done|lia].
Qed.

Lemma tokenize_then_space s c :
  Js.isSpace c = true -> tokenize (s ++ String c EmptyString) = tokenize s.
Proof.
  intros Hc. unfold tokenize. rewrite length_append_char.
  rewrite tokenizeLoop_then_space by (done || lia).
  apply tokenizeLoop_fuel; lia.
Qed.

Lemma append_assoc_char s c t :
  (s ++ String c t)%string = ((s ++ String c EmptyString) ++ t)%string.
Proof. induction s as [|d s IH]; cbn; [reflexivity|]. by rewrite IH. Qed.

Lemma tokenize_trailing post : forall s,
  allSpace post = true -> tokenize (s ++ post) = tokenize s.
Proof.
  induction post as [|c post IH]; intros s H.
  - f_equal. induction s as [|d s IHs]; cbn; [reflexivity|]. by rewrite IHs.
  - cbn [allSpace] in H. apply andb_prop in H as [Hc Hp].
    rewrite append_assoc_char, (IH _ Hp). by apply tokenize_then_space.
Qed.

Lemma tokenize_leading pre : forall s,
  allSpace pre = true -> tokenize (pre ++ s) = tokenize s.
Proof.
  induction pre as [|c pre IH]; intros s H; [reflexivity|].
  cbn [allSpace] in H. apply andb_prop in H as [Hc Hp].
  rewrite <- (IH s Hp). unfold tokenize. cbn [append String.length tokenizeLoop].
  by rewrite Hc.
Qed.

(** X21.  White space before and after a text changes nothing: the
    tokens, and with them the tree or the error, are those of the text
    alone. *)
Theorem parseTree_ignores_outer_space pre src post :
  allSpace pre = true -> allSpace post = true ->
  tokenize (pre ++ src ++ post) = tokenize src /\
  parseTree (pre ++ src ++ post) = parseTree src.
Proof.
  intros Hpre Hpost.
  assert (E : tokenize (pre ++ src ++ post) = tokenize src)
    by (by rewrite tokenize_leading, tokenize_trailing).
  split; [exact E|]. unfold parseTree. by rewrite E.
Qed.

Lemma parseTree_ignores_outer_space_witness :
  tokenize ("  " ++ "[A b]" ++ " ") = tokenize "[A b]" /\
  parseTree ("  " ++ "[A b]" ++ " ") = parseTree "[A b]".
Proof. apply parseTree_ignores_outer_space; reflexivity. Defined.

End WhiteSpace.

(** ** Where the errors of the parser arise *)

Section ParserErrors.

Import Parse Grammar Tokens.

(** The two errors of the entry of [parseNode] are not thrown once a
    bracketed node is open: a child is only ever parsed at an open
    bracket, and the loop has its own error for the end of the tokens. *)
Lemma inner_errors toks fuel :
  (forall p t e, nth_error toks p = Some t -> kind t = lbr ->
                 parseNode toks fuel p = Throw e ->
                 e <> UnexpectedEnd /\ e <> BadToken) /\
  (forall fs cs p e, parseBody toks fuel fs cs p = Throw e ->
                     e <> UnexpectedEnd /\ e <> BadToken).
Proof.
  induction fuel as [|fuel [IHn IHb]]; split; try discriminate.
  - intros p t e E K H. rewrite (parseNode_open _ _ _ _ E K) in H.
    destruct (nth_error toks (S p)) as [lt|]; [|by simplify_eq].
    destruct (kind_eqb (kind lt) sym); [|by simplify_eq].
    destruct (parseBody toks fuel [] [] (S (S p))) as [[[fs cs] q]|e'|] eqn:Eb;
      [| |discriminate].
    + destruct (nth_error toks q) as [r|]; [|by simplify_eq].
      destruct (kind_eqb (kind r) rbr); by simplify_eq.
    + injection H as <-. by apply (IHb _ _ _ _ Eb).
  - intros fs cs p e H.
    destruct (look toks p) as [E|t E K|t E K|t f E K E1 F|t E K F].
    + rewrite parseBody_end in H by done. by simplify_eq.
    + rewrite (parseBody_sym _ _ _ _ _ _ E K) in H. by apply (IHb _ _ _ _ H).
    + rewrite (parseBody_close _ _ _ _ _ _ E K) in H. discriminate.
    + rewrite (parseBody_feature _ _ _ _ _ _ _ E K E1 F) in H.
      destruct (nth_error toks (S (S p))) as [r|]; [|by simplify_eq].
      destruct (kind_eqb (kind r) rbr); [|by simplify_eq]. by apply (IHb _ _ _ _ H).
    + rewrite (parseBody_child _ _ _ _ _ _ E K F) in H.
      destruct (parseNode toks fuel p) as [[c q]|e'|] eqn:En; [| |discriminate].
      * by apply (IHb _ _ _ _ H).
      * injection H as <-. by apply (IHn _ _ _ E K En).
Qed.

(** X22.  The two errors of the entry of [parseNode] belong to the start
    of the text: [parseTree] throws the unexpected-end error exactly
    when the text has no token, and the bad-token error exactly when
    its first token is a close bracket.  Further in, a missing or
    misplaced token gives one of the other errors. *)
Theorem parseTree_errors_at_start src :
  (parseTree src = Throw UnexpectedEnd <-> tokenize src = Ok []) /\
  (parseTree src = Throw BadToken <->
   exists t toks, tokenize src = Ok (t :: toks) /\ kind t = rbr).
Proof.
  unfold parseTree. destruct (tokenize src) as [toks|e|] eqn:Et.
  - destruct toks as [|t toks].
    + unfold parseFuel. cbn [List.length Nat.mul Nat.add].
      rewrite (parseNode_end [] _ 0 eq_refl).
      split; [by split|]. split; [by intros [=]|]. by intros (t & l & [=] & _).
    + assert (Hw : wellFormedTok t).
      { apply (tokenizeLoop_wellFormed _ _ [] _ (Forall_nil _)) in Et.
        by apply Forall_inv in Et. }
      unfold wellFormedTok in Hw. unfold parseFuel. cbn [List.length Nat.mul Nat.add].
      destruct (kind t) eqn:K; [| | |done].
      * rewrite (parseNode_sym (t :: toks) _ 0 t eq_refl K).
        split; (split; [by case_match|]); [by intros [=]|].
        intros (t' & l & [= <- <-] & K'). congruence.
      * destruct (parseNode (t :: toks) _ 0) as [[n q]|e|] eqn:En.
        -- split; (split; [by case_match|]); [by intros [=]|].
           intros (t' & l & [= <- <-] & K'). congruence.
        -- destruct (proj1 (inner_errors (t :: toks) _) 0 t e eq_refl K En) as [H1 H2].
           split; (split; [intros [= ->]; done|]); [by intros [=]|].
           intros (t' & l & [= <- <-] & K'). congruence.
        -- split; (split; [by intros [=]|]); [by intros [=]|].
           intros (t' & l & [= <- <-] & K'). congruence.
      * rewrite (parseNode_bad (t :: toks) _ 0 t eq_refl (or_introl K)).
        split; [split; by intros [=]|]. split; [|done]. intros _. by exists t, toks.
  - split; (split; [intros [= ->]|]).
    + by apply tokenizeLoop_throws in Et.
    + discriminate.
    + by apply tokenizeLoop_throws in Et.
    + by intros (t & l & [=] & _).
  - split; (split; [by intros [=]|]); [by intros [=]|]. by intros (t & l & [=] & _).
Qed.

End ParserErrors.

(** ** Quoted symbols *)

Section QuotedSymbols.

Import Parse Grammar.

Lemma scanQuoted_closed s rest :
  Js.indexOf Js.dquote s = None ->
  scanQuoted (s ++ String Js.dquote rest) = (s, String Js.dquote rest).
Proof.
  induction s as [|c s IH]; intros H.
  - reflexivity.
  - cbn [Js.indexOf] in H. cbn [append scanQuoted].
    destruct (Ascii.eqb c Js.dquote); [discriminate|].
    destruct (Js.indexOf Js.dquote s); [discriminate|]. by rewrite IH.
Qed.

Lemma length_append s t :
  String.length (s ++ t) = String.length s + String.length t.
Proof. induction s as [|c s IH]; cbn; [reflexivity|]. by rewrite IH. Qed.

(** X23.  Between double quotes anything but a double quote is text:
    white space and brackets included, the quoted text is one symbol
    token, without the quotes, and on its own it parses to the single
    node that [parseFeaturesPart] makes of it. *)
Theorem quoted_text_is_one_symbol s :
  Js.indexOf Js.dquote s = None ->
  let src := String Js.dquote (s ++ String Js.dquote EmptyString) in
  tokenize src = Ok [mkTok sym s] /\
  parseTree src = Ok (symNode (mkTok sym s)).
Proof.
  intros H src.
  assert (E : tokenize src = Ok [mkTok sym s]).
  { unfold tokenize, src. cbn [String.length tokenizeLoop].
    rewrite (scanQuoted_closed s EmptyString H), length_append.
    cbn [String.length]. replace (String.length s + 1) with (S (String.length s)) by lia.
    reflexivity. }
  split; [exact E|]. unfold parseTree. rewrite E.
  unfold parseFuel. cbn [List.length Nat.mul Nat.add].
  by rewrite (parseNode_sym [mkTok sym s] _ 0 (mkTok sym s) eq_refl eq_refl).
Qed.

Lemma quoted_text_is_one_symbol_witness :
  tokenize (String Js.dquote ("the [old] dog" ++ String Js.dquote EmptyString)) =
    Ok [mkTok sym "the [old] dog"] /\
  parseTree (String Js.dquote ("the [old] dog" ++ String Js.dquote EmptyString)) =
    Ok (symNode (mkTok sym "the [old] dog")).
Proof. apply (quoted_text_is_one_symbol "the [old] dog"). reflexivity. Defined.

End QuotedSymbols.
